(** * CodeExplainer: the retrieval pipeline of the notebooks

    The notebooks [CodeExplainerSetup.ipynb] and its earlier draft wire
    a retrieval-augmented-generation chain out of library components.
    The code written in the repository itself is the context formatter
    [format_docs] and the composition [rag_chain]; everything else is
    configuration of the text splitter, the vector store and the
    retriever.

    Part I embeds the repository's own code (formatter, prompt
    template, chain).  Part II and Part III model the retriever and the
    chunker, whose implementation is not in the repository. *)

From Stdlib Require Import List String Ascii ZArith Lia Bool Arith Sorted.
From Stdlib Require Import Permutation.
Import ListNotations.

Open Scope string_scope.

(** ** Strings *)

Module Str.

(** The line feed, written [\n] in the Python source. *)
Definition nl : ascii := "010"%char.

(** Python's [sep.join(parts)]. *)
Definition join (sep : string) (parts : list string) : string :=
  String.concat sep parts.

(** [t] occurs in [s] character for character. *)
Definition verbatim_in (t s : string) : Prop :=
  exists before after, s = before ++ t ++ after.

End Str.

(** ** Part I: the code of the notebook *)

(** A LangChain document as the notebook uses it: the text and the
    metadata the loader attached (source path, language tag). *)
Record Document := mkDocument {
  page_content : string;
  metadata : list (string * string)
}.

(** [[
def format_docs(docs):
    return "\n\n".join(doc.page_content for doc in docs)
]] *)
Definition format_docs (docs : list Document) : string :=
  Str.join (String Str.nl (String Str.nl "")) (map page_content docs).

(** *** The prompt template

    [prompt = hub.pull("rlm/rag-prompt")] is a chat template with a
    single human message.  Its text is the one the notebook records
    (the markdown cell quoting it and the output of the sample
    [prompt.invoke]); the two fillers of the sample are the two
    fields. *)

Module Template.

(** A parsed format string: literal text and named replacement
    fields, as Python's [str.format] reads it. *)
Inductive segment : Type :=
  | Literal (text : string)
  | Field (name : string).

Definition kwargs : Type := list (string * string).

Fixpoint lookup (key : string) (kw : kwargs) : option string :=
  match kw with
  | [] => None
  | (k, v) :: rest => if String.eqb k key then Some v else lookup key rest
  end.

Definition push_literal (c : ascii) (segs : list segment) : list segment :=
  match segs with
  | Literal t :: rest => Literal (String c t) :: rest
  | _ => Literal (String c "") :: segs
  end.

(** The scanner is either in literal text or inside the braces of a
    field whose name is read so far. *)
Inductive mode : Type :=
  | InText
  | InField (name : string).

(** One pass over the format string.  [{{] and [}}] are escaped
    braces; a stray [}] or an unclosed [{] is an error ([None]). *)
Fixpoint parse (m : mode) (t : string) : option (list segment) :=
  match m, t with
  | InText, "" => Some []
  | InText, String "{" (String "{" rest) =>
      option_map (push_literal "{") (parse InText rest)
  | InText, String "{" rest => parse (InField "") rest
  | InText, String "}" (String "}" rest) =>
      option_map (push_literal "}") (parse InText rest)
  | InText, String "}" _ => None
  | InText, String c rest => option_map (push_literal c) (parse InText rest)
  | InField _, "" => None
  | InField name, String "}" rest =>
      option_map (cons (Field name)) (parse InText rest)
  | InField name, String c rest =>
      parse (InField (name ++ String c "")) rest
  end.

(** Substitution: each field is replaced by the value bound to its
    name; the value is appended as it is and never scanned again.
    A field without a value is an error (Python's [KeyError]). *)
Fixpoint render (segs : list segment) (kw : kwargs) : option string :=
  match segs with
  | [] => Some ""
  | Literal t :: rest => option_map (append t) (render rest kw)
  | Field name :: rest =>
      match lookup name kw, render rest kw with
      | Some v, Some out => Some (v ++ out)
      | _, _ => None
      end
  end.

Definition format (template : string) (kw : kwargs) : option string :=
  match parse InText template with
  | Some segs => render segs kw
  | None => None
  end.

End Template.

(** The three literal stretches of [rlm/rag-prompt]. *)
Definition rag_instructions : string :=
  "You are an assistant for question-answering tasks. Use the following pieces of retrieved context to answer the question. If you don't know the answer, just say that you don't know. Use three sentences maximum and keep the answer concise."
  ++ String Str.nl "Question: ".

Definition rag_before_context : string :=
  " " ++ String Str.nl "Context: ".

Definition rag_after_context : string :=
  " " ++ String Str.nl "Answer:".

Definition rag_prompt_template : string :=
  rag_instructions ++ "{question}" ++ rag_before_context ++ "{context}"
  ++ rag_after_context.

Inductive Message : Type :=
| HumanMessage (content : string).

Record ChatPromptValue := mkChatPromptValue { messages : list Message }.

(** The text the template yields for a question and a context. *)
Definition rendered_prompt (question context : string) : string :=
  rag_instructions ++ question ++ rag_before_context ++ context
  ++ rag_after_context.

(** [prompt.invoke(inputs)]. *)
Definition prompt_invoke (inputs : Template.kwargs) : option ChatPromptValue :=
  option_map (fun text => mkChatPromptValue [HumanMessage text])
             (Template.format rag_prompt_template inputs).

(** The prompt assembler of the chain: the formatter followed by the
    template, on a question and the documents retrieved for it. *)
Definition assemble (question : string) (docs : list Document)
  : option ChatPromptValue :=
  prompt_invoke [("context", format_docs docs); ("question", question)].

(** *** The chain

    [[
rag_chain = (
    {"context": retriever | format_docs, "question": RunnablePassthrough()}
    | prompt
    | llm
    | StrOutputParser()
)
    ]]
    The retriever and the language model are the chain's collaborators. *)

Section Chain.

Variable retriever : string -> list Document.
Variable llm : ChatPromptValue -> string.

Definition RunnablePassthrough (x : string) : string := x.

Definition StrOutputParser (x : string) : string := x.

(** [r1 | r2] *)
Definition pipe {A B C : Type} (r1 : A -> B) (r2 : B -> C) : A -> C :=
  fun x => r2 (r1 x).

(** A dict of runnables runs each of them on the same input. *)
Definition RunnableParallel (steps : list (string * (string -> string)))
  : string -> Template.kwargs :=
  fun x => map (fun step => (fst step, snd step x)) steps.

Definition rag_inputs : string -> Template.kwargs :=
  RunnableParallel
    [("context", pipe retriever format_docs);
     ("question", RunnablePassthrough)].

Definition rag_chain (question : string) : option string :=
  option_map (pipe llm StrOutputParser)
             (prompt_invoke (rag_inputs question)).

End Chain.

(** ** Part II: the vector index and the retriever

    [FAISS.from_documents], [as_retriever(search_type="mmr",
    search_kwargs={"k": 10})] and the embedding model are library
    calls whose code is not in the repository.  The definitions below
    follow the design of the specification (sections 3, 4.3 and 4.4).
    Coordinates and scores are integers: the order of the scores is
    what the properties are about, not their floating-point value. *)

(** Modelled from the spec: the embedding and the index entry of
    section 3, a vector of fixed dimension and the chunk (text and
    metadata) it was computed from. *)
Definition Embedding : Type := list Z.

Record IndexEntry := mkIndexEntry {
  embedding : Embedding;
  chunk : Document
}.

Definition Index : Type := list IndexEntry.

Module Retrieval.

Local Open Scope Z_scope.

(** Squared Euclidean distance, the default metric of the index. *)
Fixpoint squared_distance (a b : Embedding) : Z :=
  match a, b with
  | x :: a', y :: b' => (x - y) * (x - y) + squared_distance a' b'
  | _, _ => 0
  end.

(** The closer, the more similar. *)
Definition closeness (a b : Embedding) : Z := - squared_distance a b.

(** The inner product, a measure of direction rather than distance. *)
Fixpoint inner_product (a b : Embedding) : Z :=
  match a, b with
  | x :: a', y :: b' => x * y + inner_product a' b'
  | _, _ => 0
  end.

Inductive strategy : Type :=
  | Similarity
  | MaxMarginalRelevance.

Section Search.

(** The embedding model; the similarity measure of the index, by
    which it ranks its entries and fetches the candidates; the measure
    by which the diversity-aware mode compares one embedding with
    another; the two weights of that mode (relevance against
    redundancy) and the size of its oversampled candidate set.  The
    specification does not tie the measure of the re-ranking to the
    metric of the index, and the library the notebook calls keeps
    them apart (candidates by distance, re-ranking by the cosine), so
    they are two parameters; one function may be given for both. *)
Variable embed : string -> Embedding.
Variable similarity : Embedding -> Embedding -> Z.
Variable resemblance : Embedding -> Embedding -> Z.
Variables relevance_weight diversity_weight : Z.
Variable fetch_k : nat.

(** Modelled from the spec: [build] of section 4.3 (the library's
    [FAISS.from_documents]): one entry per chunk, in order, each
    with the embedding of its text. *)
Definition build (chunks : list Document) : Index :=
  map (fun d => mkIndexEntry (embed (page_content d)) d) chunks.

Section Query.

Variable query_vector : Embedding.

Definition relevance (e : IndexEntry) : Z :=
  similarity query_vector (embedding e).

(** Insertion into a list ranked best first; among equals the
    entry stored earlier comes first. *)
Fixpoint insert_ranked (e : IndexEntry) (ranked : list IndexEntry)
  : list IndexEntry :=
  match ranked with
  | [] => [e]
  | x :: rest =>
      if relevance x <=? relevance e then e :: ranked
      else x :: insert_ranked e rest
  end.

Definition rank (index : Index) : list IndexEntry :=
  fold_right insert_ranked [] index.

(** Best first. *)
Definition ranked (l : list IndexEntry) : Prop :=
  StronglySorted (fun a b => relevance b <= relevance a) l.

(** Modelled from the spec: the plain nearest-neighbour strategy
    of section 4.3, the top [k] entries by score. *)
Definition nearest (k : nat) (index : Index) : list IndexEntry :=
  firstn k (rank index).

(** How much the entry resembles the query, for the re-ranking. *)
Definition query_resemblance (e : IndexEntry) : Z :=
  resemblance query_vector (embedding e).

(** Most like the query first. *)
Definition by_resemblance (l : list IndexEntry) : Prop :=
  StronglySorted (fun a b => query_resemblance b <= query_resemblance a) l.

(** The greatest resemblance of [c] to an entry already selected. *)
Fixpoint redundancy (c : IndexEntry) (selected : list IndexEntry)
  : option Z :=
  match selected with
  | [] => None
  | s :: rest =>
      let here := resemblance (embedding c) (embedding s) in
      match redundancy c rest with
      | None => Some here
      | Some r => Some (Z.max here r)
      end
  end.

(** The score the re-ranking maximises: resemblance to the query,
    lowered by the redundancy with what is selected so far. *)
Definition marginal (selected : list IndexEntry) (c : IndexEntry) : Z :=
  match redundancy c selected with
  | None => query_resemblance c
  | Some r => relevance_weight * query_resemblance c - diversity_weight * r
  end.

(** The first entry of greatest score, and the others in order. *)
Fixpoint pick_best (score : IndexEntry -> Z) (l : list IndexEntry)
  : option (IndexEntry * list IndexEntry) :=
  match l with
  | [] => None
  | x :: rest =>
      match pick_best score rest with
      | Some (y, others) =>
          if score x <? score y then Some (y, x :: others)
          else Some (x, rest)
      | None => Some (x, [])
      end
  end.

Fixpoint rerank (k : nat) (selected remaining : list IndexEntry)
  : list IndexEntry :=
  match k with
  | O => []
  | S k' =>
      match pick_best (marginal selected) remaining with
      | None => []
      | Some (c, remaining') =>
          c :: rerank k' (selected ++ [c]) remaining'
      end
  end.

(** Modelled from the spec: the diversity-aware strategy of
    section 4.3 (the library's max-marginal-relevance search):
    the [fetch_k] nearest entries are the candidates, and they
    are re-ranked one at a time, each time taking the candidate
    that best balances resemblance to the query against
    resemblance to the entries already taken. *)
Definition max_marginal_relevance (k : nat) (index : Index)
  : list IndexEntry :=
  rerank k [] (nearest fetch_k index).

Definition search_entries (k : nat) (s : strategy) (index : Index)
  : list IndexEntry :=
  match s with
  | Similarity => nearest k index
  | MaxMarginalRelevance => max_marginal_relevance k index
  end.

(** Modelled from the spec: [search] of section 4.3, the chunks
    found with their scores. *)
Definition search (k : nat) (s : strategy) (index : Index)
  : list (Document * Z) :=
  map (fun e => (chunk e, relevance e)) (search_entries k s index).

End Query.

(** Modelled from the spec: [retrieve] of section 4.4: the query
    is embedded, the index searched, the chunks returned. *)
Definition retrieve (s : strategy) (index : Index) (q : string) (k : nat)
  : list Document :=
  map fst (search (embed q) k s index).

(** The relevance scores of what [retrieve] returns, in order. *)
Definition retrieved_scores (s : strategy) (index : Index) (q : string)
    (k : nat) : list Z :=
  map snd (search (embed q) k s index).

(** [retriever = vector_db.as_retriever(search_type="mmr",
    search_kwargs={"k": 10})] *)
Definition as_retriever (vector_db : Index) : string -> list Document :=
  fun q => retrieve MaxMarginalRelevance vector_db q 10%nat.

End Search.

(** Scores in best-first order: none is followed by a greater one. *)
Fixpoint non_increasing (scores : list Z) : bool :=
  match scores with
  | x :: ((y :: _) as rest) => (y <=? x) && non_increasing rest
  | _ => true
  end.

(** A small embedding model for examples: how many [a] and how many
    [b] the text has. *)
Fixpoint count_char (c : ascii) (s : string) : Z :=
  match s with
  | "" => 0
  | String x rest => (if Ascii.eqb x c then 1 else 0) + count_char c rest
  end.

Definition letter_counts (s : string) : Embedding :=
  [count_char "a" s; count_char "b" s].

Definition example_chunks : list Document :=
  [mkDocument "a" []; mkDocument "aa" []; mkDocument "bbb" []].

Definition example_db : Index := build letter_counts example_chunks.

Definition entry_a : IndexEntry := mkIndexEntry [1; 0] (mkDocument "a" []).
Definition entry_aa : IndexEntry := mkIndexEntry [2; 0] (mkDocument "aa" []).
Definition entry_bbb : IndexEntry := mkIndexEntry [0; 3] (mkDocument "bbb" []).

End Retrieval.

(** ** Part III: the chunker

    [[
code_splitter = RecursiveCharacterTextSplitter.from_language(
    language=language, chunk_size=750, chunk_overlap=75
)
doc_chunks = code_splitter.split_documents(documents)
    ]]
    The splitter is a library class; the repository has the call and,
    in the notebook's notes, the policy: the text is split by
    recursively looking at a list of separators, for Python first
    along class and function definitions, then along lines and
    spaces, and the characters of overlap preserve context. *)

Module Chunker.

Local Open Scope nat_scope.
Local Open Scope list_scope.

Definition text : Type := list ascii.

Definition lit (s : string) : text := list_ascii_of_string s.

Fixpoint total_length (pieces : list text) : nat :=
  match pieces with
  | [] => 0
  | p :: rest => List.length p + total_length rest
  end.

(** Python's [str.isspace] on the ASCII range. *)
Definition is_space (c : ascii) : bool :=
  let n := nat_of_ascii c in
  ((9 <=? n) && (n <=? 13)) || ((28 <=? n) && (n <=? 32)).

Fixpoint lstrip (t : text) : text :=
  match t with
  | c :: rest => if is_space c then lstrip rest else t
  | [] => []
  end.

Definition rstrip (t : text) : text := rev (lstrip (rev t)).

(** Python's [str.strip()]. *)
Definition strip (t : text) : text := rstrip (lstrip t).

Fixpoint starts_with (sep t : text) : bool :=
  match sep, t with
  | [], _ => true
  | a :: sep', b :: t' => Ascii.eqb a b && starts_with sep' t'
  | _ :: _, [] => false
  end.

(** The separator is found somewhere in the text. *)
Fixpoint occurs (sep t : text) : bool :=
  starts_with sep t
  || match t with
     | [] => false
     | _ :: rest => occurs sep rest
     end.

(** One pass over the text, cutting in front of every match of the
    separator; a match is not looked for inside the match before it
    ([skip] characters of it are still to pass).  The result is the
    piece in progress and the pieces after it. *)
Fixpoint scan (sep : text) (skip : nat) (t : text) : text * list text :=
  match t with
  | [] => ([], [])
  | c :: rest =>
      if (skip =? 0) && starts_with sep t then
        let (piece, later) := scan sep (List.length sep - 1) rest in
        ([], (c :: piece) :: later)
      else
        let (piece, later) := scan sep (skip - 1) rest in
        (c :: piece, later)
  end.

Definition nonempty (t : text) : bool :=
  match t with
  | [] => false
  | _ :: _ => true
  end.

(** Modelled from the spec: splitting at a boundary (section 4.1)
    with nothing lost: the pieces of a text cut at a separator, every
    piece after the first beginning with the separator; the empty
    separator cuts between all characters.  Empty pieces are left
    out. *)
Definition split_keep (sep t : text) : list text :=
  let (piece, later) := scan sep 0 t in
  filter nonempty (piece :: later).

Section Splitter.

Variables chunk_size chunk_overlap : nat.
Variable strip_whitespace : bool.

(** Modelled from the spec: the text of a chunk (section 3: a chunk
    is a substring of the document).  The pieces are joined as they
    are; the library then removes the whitespace at the two ends
    unless told otherwise, as the sample chunks printed in the
    notebook show (the fifth begins without the indentation of its
    line), and gives no chunk for a text that is empty. *)
Definition join_docs (current : list text) : option text :=
  let joined := List.concat current in
  match (if strip_whitespace then strip joined else joined) with
  | [] => None
  | doc => Some doc
  end.

Definition emit (current : list text) : list text :=
  match join_docs current with
  | Some doc => [doc]
  | None => []
  end.

(** After a chunk is emitted its leading pieces are dropped until
    what is left fits in the overlap and leaves room for the next
    piece, of length [len]. *)
Fixpoint drop_front (len : nat) (current : list text) : list text :=
  match current with
  | [] => []
  | _ :: rest =>
      let total := total_length current in
      if (chunk_overlap <? total)
         || ((chunk_size <? total + len) && (0 <? total))
      then drop_front len rest
      else current
  end.

(** Modelled from the spec: chunks bounded by [chunk_size] that share
    up to [chunk_overlap] characters with their neighbour (sections 3
    and 4.1).  Small pieces are gathered into a chunk as long as they
    fit; the pieces kept from one chunk open the next. *)
Fixpoint merge (current splits : list text) : list text :=
  match splits with
  | [] => emit current
  | d :: more =>
      if chunk_size <? total_length current + List.length d then
        match current with
        | [] => merge [d] more
        | _ :: _ =>
            emit current
            ++ merge (drop_front (List.length d) current ++ [d]) more
        end
      else merge (current ++ [d]) more
  end.

(** Modelled from the spec: the hierarchy of section 4.1: the pieces
    shorter than [chunk_size] are merged; a longer one is handed to
    [recur], the splitting at the finer separators. *)
Fixpoint collect (recur : text -> list text) (good splits : list text)
  : list text :=
  match splits with
  | [] => merge [] good
  | piece :: more =>
      if List.length piece <? chunk_size
      then collect recur (good ++ [piece]) more
      else merge [] good ++ recur piece ++ collect recur [] more
  end.

Definition whole (piece : text) : list text := [piece].

Definition process (sep : text) (recur : text -> list text) (t : text)
  : list text :=
  collect recur [] (split_keep sep t).

(** Modelled from the spec: the Chunker of section 4.1, which the
    notebook takes from the library
    ([RecursiveCharacterTextSplitter]; its code is not in the
    repository).  The separators are tried from the coarsest: the
    first one found in the text cuts it, the pieces that are too long
    are cut again with the finer separators that follow, the others
    are merged.  The empty separator ends the search; when no
    separator is found the last one is used, and a piece that is too
    long when no finer separator is left is emitted whole. *)
Fixpoint split_text (sep : text) (finer : list text) (t : text) {struct finer}
  : list text :=
  match finer with
  | [] => process sep whole t
  | sep' :: finer' =>
      if negb (nonempty sep) then process sep whole t
      else if occurs sep t then process sep (split_text sep' finer') t
      else split_text sep' finer' t
  end.

End Splitter.

(** The separator that is used when nothing coarser applies: the
    first empty one, or else the last. *)
Fixpoint finest (sep : text) (finer : list text) : text :=
  match finer with
  | [] => sep
  | sep' :: finer' => if negb (nonempty sep) then sep else finest sep' finer'
  end.

Record Splitter := mkSplitter {
  separator : text;
  finer_separators : list text;
  chunk_size : nat;
  chunk_overlap : nat;
  strip_whitespace : bool
}.

Definition chunk_texts (sp : Splitter) (t : text) : list text :=
  split_text (chunk_size sp) (chunk_overlap sp) (strip_whitespace sp)
             (separator sp) (finer_separators sp) t.

(** The chunks before their ends are trimmed. *)
Definition stretches (sp : Splitter) (t : text) : list text :=
  split_text (chunk_size sp) (chunk_overlap sp) false
             (separator sp) (finer_separators sp) t.

(** [split_documents]: every chunk is a document with the metadata of
    the document it comes from. *)
Definition split_documents (sp : Splitter) (docs : list Document)
  : list Document :=
  flat_map
    (fun d =>
       map (fun c => mkDocument (string_of_list_ascii c) (metadata d))
           (chunk_texts sp (lit (page_content d))))
    docs.

Definition tab : ascii := "009"%char.

(** The separators of [Language.PYTHON]: class and function
    definitions, then blank lines, lines, spaces and characters. *)
Definition python_separators : list text :=
  [Str.nl :: lit "def "; Str.nl :: tab :: lit "def ";
   [Str.nl; Str.nl]; [Str.nl]; lit " "; []].

(** [from_language(language=Language.PYTHON, chunk_size=750,
    chunk_overlap=75)]; whitespace at the ends of a chunk is trimmed
    unless the caller asks otherwise. *)
Definition code_splitter : Splitter :=
  mkSplitter (Str.nl :: lit "class ") python_separators 750 75 true.

(** How the chunks relate to the text: put one after the other, each
    without the characters it repeats from the end of the one before
    (at most [n] of them), they give the text back. *)
Inductive stitches (n : nat) : list text -> text -> Prop :=
| stitches_nil : stitches n [] []
| stitches_one c : stitches n [c] c
| stitches_cons before shared c rest t :
  List.length shared <= n ->
  starts_with shared c = true ->
  stitches n (c :: rest) t ->
  stitches n ((before ++ shared) :: c :: rest) (before ++ t).

(** The chunk [c] is the stretch of [t] that begins at [offset]. *)
Definition occurs_at (c : text) (offset : nat) (t : text) : Prop :=
  exists before after,
    t = before ++ c ++ after /\ List.length before = offset.

(** Every position of the text lies in a chunk. *)
Definition covers (chunks : list text) (t : text) : Prop :=
  forall p, p < List.length t ->
    exists c offset,
      In c chunks /\ occurs_at c offset t
      /\ offset <= p < offset + List.length c.

(** The chunks are the stretches with the whitespace at their ends
    removed; a stretch that is all whitespace gives no chunk, and a
    stretch emitted whole is left as it is. *)
Inductive trimmed_from : list text -> list text -> Prop :=
| trimmed_nil : trimmed_from [] []
| trimmed_same s chunks ss :
  trimmed_from chunks ss -> trimmed_from (s :: chunks) (s :: ss)
| trimmed_strip s chunks ss :
  strip s <> [] ->
  trimmed_from chunks ss -> trimmed_from (strip s :: chunks) (s :: ss)
| trimmed_blank s chunks ss :
  strip s = [] ->
  trimmed_from chunks ss -> trimmed_from chunks (s :: ss).







Definition ceil_div (a b : nat) : nat := (a + b - 1) / b.

(** A small file, as the loader reads it. *)
Definition import_line : text := lit "import os" ++ [Str.nl].


Definition long_line : text := lit "abcdefghijklmnop".

Definition two_lines : text := lit "ab" ++ [Str.nl] ++ long_line.

(** A function of fifty lines. *)
Definition function_header : text := lit "def accumulate(total, x):".

Definition function_line : text := Str.nl :: lit "    total = total + bump(x)".

Definition function_return : text := Str.nl :: lit "    return total".

Definition fifty_line_function : text :=
  function_header ++ List.concat (repeat function_line 48) ++ function_return.

End Chunker.

(** ** Part IV: the cells around the chain

    The notebook runs its steps cell by cell on the variables
    [documents], [doc_chunks], [vector_db] and [retriever]; two cells
    print samples of what the steps produced. *)

Module Notebook.

(** [from_language(language=Language.PYTHON, chunk_size=...,
    chunk_overlap=...)], as both notebooks call it. *)
Definition from_language_python (chunk_size chunk_overlap : nat)
  : Chunker.Splitter :=
  Chunker.mkSplitter (Str.nl :: Chunker.lit "class ") Chunker.python_separators
                     chunk_size chunk_overlap true.

(** The splitter of the earlier draft: [chunk_size=10_000,
    chunk_overlap=800]. *)
Definition draft_code_splitter : Chunker.Splitter :=
  from_language_python (100 * 100) 800.

(** [doc_chunks = code_splitter.split_documents(documents)] *)
Definition doc_chunks (documents : list Document) : list Document :=
  Chunker.split_documents Chunker.code_splitter documents.

(** [texts = code_splitter.split_documents(documents)] of the draft. *)
Definition texts (documents : list Document) : list Document :=
  Chunker.split_documents draft_code_splitter documents.

(** How a cell ends: it runs to its end or stops at a list index out
    of range. *)
Inductive outcome : Type :=
| Completed
| IndexError.

(** Python's [s[:n]]. *)
Definition prefix_of (n : nat) (s : string) : string := String.substring 0 n s.

(** [[
for ii in range(5):
    print(doc_chunks[ii].page_content[:50])
    ]]
    over the indices still to visit; what was printed so far is kept
    when an index is out of range. *)
Fixpoint print_each (indices : list nat) (chunks : list Document)
    (printed : list string) : list string * outcome :=
  match indices with
  | [] => (printed, Completed)
  | ii :: rest =>
      match nth_error chunks ii with
      | None => (printed, IndexError)
      | Some d =>
          print_each rest chunks
                     (printed ++ [prefix_of 50 (page_content d)])%list
      end
  end.

(** [[
print("Sample document chunks: \n")
for ii in range(5):
    print(doc_chunks[ii].page_content[:50])
    ]] *)
Definition print_sample_chunks (chunks : list Document)
  : list string * outcome :=
  print_each (seq 0 5) chunks ["Sample document chunks: " ++ String Str.nl ""].

(** [[
docs_retrieved = retriever.invoke(query)
print(docs_retrieved[0].page_content)
    ]] *)
Definition print_first_retrieved (retriever : string -> list Document)
    (query : string) : option string :=
  match retriever query with
  | [] => None
  | d :: _ => Some (page_content d)
  end.

(** Python's [s.split()]: the stretches of the text between
    whitespace, none of them empty. *)
Fixpoint words (t : Chunker.text) : list Chunker.text :=
  match t with
  | [] => []
  | c :: rest =>
      if Chunker.is_space c then words rest
      else
        match rest with
        | [] => [[c]]
        | c' :: _ =>
            if Chunker.is_space c' then [c] :: words rest
            else
              match words rest with
              | w :: ws => (c :: w) :: ws
              | [] => [[c]]
              end
        end
  end.

(** [[len(sent.page_content.split()) for sent in doc_chunks]], the
    word counts that the estimate of the tokens per chunk starts
    from. *)
Definition word_counts (chunks : list Document) : list nat :=
  map (fun sent => List.length (words (Chunker.lit (page_content sent))))
      chunks.

Section Pipeline.

Variable embed : string -> Embedding.
Variable similarity : Embedding -> Embedding -> Z.
Variable resemblance : Embedding -> Embedding -> Z.
Variables relevance_weight diversity_weight : Z.
Variable fetch_k : nat.

(** [vector_db = FAISS.from_documents(doc_chunks, embeddings)] *)
Definition vector_db (documents : list Document) : Index :=
  Retrieval.build embed (doc_chunks documents).

(** [retriever = vector_db.as_retriever(search_type="mmr",
    search_kwargs={"k": 10})] *)
Definition retriever (index : Index) : string -> list Document :=
  Retrieval.as_retriever embed similarity resemblance relevance_weight
                         diversity_weight fetch_k index.

End Pipeline.

(** The characters of the template around its two fields. *)
Definition template_overhead : nat :=
  String.length rag_instructions + String.length rag_before_context
  + String.length rag_after_context.

End Notebook.

(** * Properties *)

(** ** Strings *)

Module StrFacts.

Import Str.

Lemma append_nil_r (s : string) : s ++ "" = s.
Proof. induction s as [|c s IH]; simpl; congruence. Qed.

Lemma append_assoc (a b c : string) : (a ++ b) ++ c = a ++ (b ++ c).
Proof. induction a as [|x a IH]; simpl; congruence. Qed.

Lemma length_append (a b : string) :
  String.length (a ++ b) = String.length a + String.length b.
Proof. induction a as [|x a IH]; simpl; congruence. Qed.

Lemma verbatim_in_refl (s : string) : verbatim_in s s.
Proof. exists "", "". simpl. now rewrite append_nil_r. Qed.

Lemma verbatim_in_append_l (t s pre : string) :
  verbatim_in t s -> verbatim_in t (pre ++ s).
Proof.
  intros (a & b & ->). exists (pre ++ a), b. now rewrite append_assoc.
Qed.

Lemma verbatim_in_append_r (t s post : string) :
  verbatim_in t s -> verbatim_in t (s ++ post).
Proof.
  intros (a & b & ->). exists a, (b ++ post).
  now rewrite !append_assoc.
Qed.

Lemma join_cons2 (sep x y : string) (rest : list string) :
  join sep (x :: y :: rest) = x ++ sep ++ join sep (y :: rest).
Proof. reflexivity. Qed.

(** Every joined part is found unchanged in the result. *)
Lemma join_verbatim (sep : string) (parts : list string) (p : string) :
  In p parts -> verbatim_in p (join sep parts).
Proof.
  induction parts as [|x [|y rest] IH]; intros Hin.
  - destruct Hin.
  - destruct Hin as [<- | []]. apply verbatim_in_refl.
  - rewrite join_cons2. destruct Hin as [<- | Hin].
    + apply verbatim_in_append_r, verbatim_in_refl.
    + apply verbatim_in_append_l, verbatim_in_append_l, IH, Hin.
Qed.

End StrFacts.

(** ** Part I: formatter, template and chain *)

Lemma parse_rag_prompt_template :
  Template.parse Template.InText rag_prompt_template
  = Some [Template.Literal rag_instructions; Template.Field "question";
          Template.Literal rag_before_context; Template.Field "context";
          Template.Literal rag_after_context].
Proof. vm_compute. reflexivity. Qed.

(** With both fields bound, the template yields its three literal
    stretches around the two values, whatever the values contain. *)
Lemma prompt_invoke_context_question (question context : string) :
  prompt_invoke [("context", context); ("question", question)]
  = Some (mkChatPromptValue [HumanMessage (rendered_prompt question context)]).
Proof.
  unfold prompt_invoke, Template.format.
  rewrite parse_rag_prompt_template.
  cbn [Template.render Template.lookup option_map].
  change ("question" =? "question") with true.
  change ("context" =? "question") with false.
  change ("context" =? "context") with true.
  cbn [option_map]. unfold rendered_prompt.
  now rewrite StrFacts.append_nil_r.
Qed.

(** C8: prompt assembly joins the retrieved texts with the separator
    of two line feeds and substitutes the question and the joined
    context into the fixed template; nothing is validated or escaped,
    so the text of every retrieved document, whatever it contains, is
    found character for character in the assembled prompt. *)
Theorem assemble_joins_and_substitutes (question : string) (docs : list Document) :
  (forall d1 d2 rest,
      format_docs (d1 :: d2 :: rest)
      = page_content d1 ++ String Str.nl (String Str.nl "")
        ++ format_docs (d2 :: rest))
  /\ assemble question docs
     = Some (mkChatPromptValue
               [HumanMessage (rendered_prompt question (format_docs docs))])
  /\ Str.verbatim_in question (rendered_prompt question (format_docs docs))
  /\ (forall d, In d docs ->
        Str.verbatim_in (page_content d)
                        (rendered_prompt question (format_docs docs))).
Proof.
  split; [reflexivity|].
  split; [apply prompt_invoke_context_question|].
  split.
  - unfold rendered_prompt.
    apply StrFacts.verbatim_in_append_l, StrFacts.verbatim_in_append_r,
      StrFacts.verbatim_in_refl.
  - intros d Hd. unfold rendered_prompt.
    do 3 apply StrFacts.verbatim_in_append_l.
    apply StrFacts.verbatim_in_append_r.
    apply StrFacts.join_verbatim, in_map, Hd.
Qed.

Lemma assemble_joins_and_substitutes_witness :
  Str.verbatim_in "{context}"
    (rendered_prompt "q" (format_docs [mkDocument "{context}" []])).
Proof.
  apply (proj2 (proj2 (proj2
           (assemble_joins_and_substitutes "q" [mkDocument "{context}" []])))
           (mkDocument "{context}" [])).
  simpl. left. reflexivity.
Defined.

(** A retrieved chunk that itself looks like the template stays as it
    is: its braces are neither substituted nor rejected. *)
Example assemble_keeps_template_syntax :
  assemble "q" [mkDocument "Question: {question} {{x}} }" []]
  = Some (mkChatPromptValue
            [HumanMessage
               (rag_instructions ++ "q" ++ rag_before_context
                ++ "Question: {question} {{x}} }" ++ rag_after_context)]).
Proof. vm_compute. reflexivity. Qed.

(** C9: the formatter on no document is the empty string, and the
    prompt built from it is the template around an empty context; on
    one document it is that document's text. *)
Theorem format_docs_empty_and_singleton :
  format_docs [] = ""
  /\ (forall question,
        assemble question []
        = Some (mkChatPromptValue [HumanMessage (rendered_prompt question "")]))
  /\ (forall d, format_docs [d] = page_content d).
Proof.
  split; [reflexivity|]. split; [|reflexivity].
  intros question. apply (prompt_invoke_context_question question "").
Qed.

(** C10: the chain binds the question field to the question as it was
    asked, and the language model receives the template rendered with
    exactly that text. *)
Theorem rag_chain_passes_question_through
    (retriever : string -> list Document) (llm : ChatPromptValue -> string)
    (question : string) :
  Template.lookup "question" (rag_inputs retriever question) = Some question
  /\ prompt_invoke (rag_inputs retriever question)
     = Some (mkChatPromptValue
               [HumanMessage
                  (rendered_prompt question (format_docs (retriever question)))])
  /\ rag_chain retriever llm question
     = Some (llm (mkChatPromptValue
                    [HumanMessage
                       (rendered_prompt question
                                        (format_docs (retriever question)))])).
Proof.
  assert (Hp : prompt_invoke (rag_inputs retriever question)
     = Some (mkChatPromptValue
               [HumanMessage
                  (rendered_prompt question (format_docs (retriever question)))])).
  { apply (prompt_invoke_context_question question
             (format_docs (retriever question))). }
  split; [reflexivity|]. split; [exact Hp|].
  unfold rag_chain. rewrite Hp. reflexivity.
Qed.

(** ** Lists *)

Lemma In_firstn {A : Type} (n : nat) (l : list A) (x : A) :
  In x (firstn n l) -> In x l.
Proof.
  revert l. induction n as [|n IH]; intros [|y l]; simpl; try tauto.
  intros [-> | H]; [now left | right; now apply IH].
Qed.

(** ** Part II: retrieval *)

Module RetrievalFacts.

Import Retrieval.
Local Open Scope Z_scope.
Local Open Scope list_scope.

(** *** Taking the best of a list *)

Lemma pick_best_none (score : IndexEntry -> Z) (l : list IndexEntry) :
  pick_best score l = None -> l = [].
Proof.
  destruct l as [|x l]; [reflexivity|]. simpl.
  destruct (pick_best score l) as [[y ?]|];
    [destruct (score x <? score y)|]; discriminate.
Qed.

Lemma pick_best_spec (score : IndexEntry -> Z) (l l' : list IndexEntry)
    (c : IndexEntry) :
  pick_best score l = Some (c, l') ->
  In c l
  /\ (forall x, In x l -> score x <= score c)
  /\ (forall x, In x l -> x = c \/ In x l')
  /\ (forall x, In x l' -> In x l)
  /\ List.length l = S (List.length l').
Proof.
  revert l' c. induction l as [|x l IH]; intros l' c H; [discriminate|].
  simpl in H. destruct (pick_best score l) as [[y others]|] eqn:E.
  - destruct (IH _ _ eq_refl) as (Hin & Hmax & Hsplit & Hback & Hlen).
    destruct (score x <? score y) eqn:Hlt; injection H as <- <-.
    + apply Z.ltb_lt in Hlt. repeat split.
      * now right.
      * intros z [<- | Hz]; [lia | now apply Hmax].
      * intros z [<- | Hz]; [right; now left|].
        destruct (Hsplit z Hz); [now left | right; now right].
      * intros z [<- | Hz]; [now left | right; now apply Hback].
      * simpl. now rewrite Hlen.
    + apply Z.ltb_ge in Hlt. repeat split.
      * now left.
      * intros z [<- | Hz]; [lia|]. specialize (Hmax z Hz). lia.
      * intros z [<- | Hz]; [now left | now right].
      * intros z Hz. now right.
  - injection H as <- <-. apply pick_best_none in E. subst l.
    repeat split; simpl; try tauto.
    + intros z [<- | []]. lia.
    + intros z [<- | []]. now left.
Qed.

(** *** Ranking by the metric of the index *)

Section Ranking.

Variable similarity : Embedding -> Embedding -> Z.
Variable qv : Embedding.

Local Abbreviation relevance := (relevance similarity qv).
Local Abbreviation insert_ranked := (insert_ranked similarity qv).
Local Abbreviation rank := (rank similarity qv).
Local Abbreviation nearest := (nearest similarity qv).
Local Abbreviation ranked := (ranked similarity qv).

Lemma insert_ranked_In (e x : IndexEntry) (l : list IndexEntry) :
  In x (insert_ranked e l) <-> x = e \/ In x l.
Proof.
  induction l as [|y l IH]; simpl.
  - intuition.
  - destruct (relevance y <=? relevance e); simpl; [intuition|].
    rewrite IH. intuition.
Qed.

Lemma insert_ranked_length (e : IndexEntry) (l : list IndexEntry) :
  List.length (insert_ranked e l) = S (List.length l).
Proof.
  induction l as [|y l IH]; simpl; [reflexivity|].
  destruct (relevance y <=? relevance e); simpl; congruence.
Qed.

Lemma insert_ranked_ranked (e : IndexEntry) (l : list IndexEntry) :
  ranked l -> ranked (insert_ranked e l).
Proof.
  unfold ranked. induction 1 as [|y l Hl IH Hy]; simpl.
  - repeat constructor.
  - destruct (relevance y <=? relevance e) eqn:E.
    + apply Z.leb_le in E. constructor.
      * now constructor.
      * constructor; [exact E|].
        rewrite Forall_forall in *. intros z Hz.
        specialize (Hy z Hz). lia.
    + apply Z.leb_gt in E. constructor; [exact IH|].
      rewrite Forall_forall in *. intros z Hz.
      apply insert_ranked_In in Hz as [-> | Hz]; [lia | now apply Hy].
Qed.

Lemma rank_In (x : IndexEntry) (index : Index) :
  In x (rank index) <-> In x index.
Proof.
  induction index as [|e index IH]; simpl; [reflexivity|].
  unfold Retrieval.rank in *. simpl.
  rewrite insert_ranked_In, IH. intuition.
Qed.

Lemma rank_length (index : Index) : List.length (rank index) = List.length index.
Proof.
  induction index as [|e index IH]; simpl; [reflexivity|].
  unfold Retrieval.rank in *. simpl.
  now rewrite insert_ranked_length, IH.
Qed.

Lemma rank_ranked (index : Index) : ranked (rank index).
Proof.
  induction index as [|e index IH]; simpl.
  - constructor.
  - apply insert_ranked_ranked, IH.
Qed.

Lemma ranked_firstn (n : nat) (l : list IndexEntry) :
  ranked l -> ranked (firstn n l).
Proof.
  unfold ranked. intros H. revert n.
  induction H as [|y l Hl IH Hy]; intros [|n]; simpl; try constructor.
  - apply IH.
  - rewrite Forall_forall in *. intros z Hz.
    apply Hy. eapply In_firstn; eauto.
Qed.

Lemma ranked_non_increasing (l : list IndexEntry) :
  ranked l -> non_increasing (map relevance l) = true.
Proof.
  unfold ranked. induction 1 as [|y l Hl IH Hy]; [reflexivity|].
  destruct l as [|z l]; [reflexivity|].
  change (((relevance z <=? relevance y)
           && non_increasing (map relevance (z :: l)))%bool = true).
  rewrite IH, andb_true_r. apply Z.leb_le.
  rewrite Forall_forall in Hy. apply Hy. now left.
Qed.

Lemma nearest_length (k : nat) (index : Index) :
  List.length (nearest k index) = Nat.min k (List.length index).
Proof.
  unfold Retrieval.nearest. now rewrite length_firstn, rank_length.
Qed.

Lemma nearest_In (k : nat) (index : Index) (e : IndexEntry) :
  In e (nearest k index) -> In e index.
Proof.
  unfold Retrieval.nearest. intros H.
  apply rank_In. eapply In_firstn; eauto.
Qed.

(** The head of the candidates is a most relevant entry of the
    whole index. *)
Lemma nearest_head_best (k : nat) (index : Index) (h : IndexEntry)
    (t : list IndexEntry) :
  nearest k index = h :: t ->
  forall e, In e index -> relevance e <= relevance h.
Proof.
  unfold Retrieval.nearest. intros Hk e He.
  apply rank_In in He. pose proof (rank_ranked index) as Hs.
  destruct (rank index) as [|y l]; [now destruct k|].
  destruct k as [|k]; [discriminate|]. simpl in Hk.
  injection Hk as <- _.
  destruct He as [<- | He]; [lia|].
  inversion Hs as [|? ? _ Hy]; subst.
  rewrite Forall_forall in Hy. now apply Hy.
Qed.

End Ranking.

(** *** Re-ranking for diversity *)

Section Reranking.

Variable resemblance : Embedding -> Embedding -> Z.
Variables relevance_weight diversity_weight : Z.
Variable qv : Embedding.

Local Abbreviation query_resemblance := (query_resemblance resemblance qv).
Local Abbreviation marginal :=
  (marginal resemblance relevance_weight diversity_weight qv).
Local Abbreviation rerank :=
  (rerank resemblance relevance_weight diversity_weight qv).

Lemma rerank_length (k : nat) (selected remaining : list IndexEntry) :
  List.length (rerank k selected remaining) = Nat.min k (List.length remaining).
Proof.
  revert selected remaining.
  induction k as [|k IH]; intros selected remaining; [reflexivity|].
  simpl. destruct (pick_best _ remaining) as [[c rest]|] eqn:E.
  - apply pick_best_spec in E as (_ & _ & _ & _ & Hlen).
    simpl. rewrite IH, Hlen. reflexivity.
  - apply pick_best_none in E. now subst.
Qed.

Lemma rerank_In (k : nat) (selected remaining : list IndexEntry)
    (e : IndexEntry) :
  In e (rerank k selected remaining) -> In e remaining.
Proof.
  revert selected remaining.
  induction k as [|k IH]; intros selected remaining; [intros []|].
  simpl. destruct (pick_best _ remaining) as [[c rest]|] eqn:E;
    [|intros []].
  apply pick_best_spec in E as (Hc & _ & _ & Hback & _).
  intros [<- | He]; [exact Hc|]. apply Hback. eapply IH, He.
Qed.

(** Every result is the candidate of greatest marginal score among
    those not taken before it. *)
Lemma rerank_greedy (k : nat) (selected remaining : list IndexEntry)
    (pre post : list IndexEntry) (c : IndexEntry) :
  rerank k selected remaining = pre ++ c :: post ->
  forall c', In c' remaining -> ~ In c' pre ->
    marginal (selected ++ pre) c' <= marginal (selected ++ pre) c.
Proof.
  revert selected remaining pre.
  induction k as [|k IH]; intros selected remaining pre H c' Hc' Hpre.
  - now destruct pre.
  - simpl in H.
    destruct (pick_best _ remaining) as [[p rest]|] eqn:E;
      [|now destruct pre].
    apply pick_best_spec in E as (_ & Hmax & Hsplit & _ & _).
    destruct pre as [|p' pre]; simpl in H; injection H as -> H.
    + rewrite app_nil_r. now apply Hmax.
    + change (selected ++ p' :: pre) with (selected ++ [p'] ++ pre).
      rewrite app_assoc. eapply IH; [exact H| |].
      * destruct (Hsplit c' Hc') as [-> | Hr]; [|exact Hr].
        exfalso. apply Hpre. now left.
      * intros Hin. apply Hpre. now right.
Qed.

Lemma redundancy_grows (c x : IndexEntry) (selected : list IndexEntry) (r : Z) :
  redundancy resemblance c selected = Some r ->
  exists r', redundancy resemblance c (selected ++ [x]) = Some r' /\ r <= r'.
Proof.
  revert r. induction selected as [|s selected IH]; intros r; [discriminate|].
  cbn [redundancy app].
  destruct (redundancy resemblance c selected) as [r0|] eqn:E.
  - destruct (IH r0 eq_refl) as (r' & -> & Hr'). intros [= <-].
    eexists. split; [reflexivity | lia].
  - destruct selected as [|s' selected].
    + intros [= <-]. simpl. eexists. split; [reflexivity | lia].
    + simpl in E. destruct (redundancy resemblance c selected); discriminate.
Qed.

(** One more selected entry can only lower a marginal score. *)
Lemma marginal_snoc (c x : IndexEntry) (selected : list IndexEntry) :
  0 <= diversity_weight -> selected <> [] ->
  marginal (selected ++ [x]) c <= marginal selected c.
Proof.
  intros Hw Hne. unfold Retrieval.marginal.
  destruct (redundancy resemblance c selected) as [r|] eqn:E.
  - destruct (redundancy_grows c x selected r E) as (r' & -> & Hr'). nia.
  - destruct selected as [|s selected]; [contradiction|].
    simpl in E. destruct (redundancy resemblance c selected); discriminate.
Qed.

(** After the first result, each result is taken at a marginal score
    no greater than the one before it. *)
Lemma rerank_descends (k : nat) (selected remaining : list IndexEntry)
    (pre post : list IndexEntry) (c1 c2 : IndexEntry) :
  rerank k selected remaining = pre ++ c1 :: c2 :: post ->
  0 <= diversity_weight -> selected ++ pre <> [] ->
  marginal ((selected ++ pre) ++ [c1]) c2 <= marginal (selected ++ pre) c1.
Proof.
  intros H Hw. revert selected remaining pre H.
  induction k as [|k IH]; intros selected remaining pre H Hne.
  - now destruct pre.
  - simpl in H.
    destruct (pick_best _ remaining) as [[p rest]|] eqn:E;
      [|now destruct pre].
    apply pick_best_spec in E as (_ & Hmax & _ & Hback & _).
    destruct pre as [|p' pre]; simpl in H; injection H as -> H.
    + rewrite app_nil_r in *. destruct k as [|k]; [discriminate|].
      simpl in H.
      destruct (pick_best _ rest) as [[p2 rest2]|] eqn:E2; [|discriminate].
      injection H as -> _.
      apply pick_best_spec in E2 as (Hin & _).
      etransitivity; [apply marginal_snoc; assumption|].
      apply Hmax, Hback, Hin.
    + change (selected ++ p' :: pre) with (selected ++ [p'] ++ pre).
      rewrite app_assoc. eapply IH; [exact H|].
      destruct selected; discriminate.
Qed.

End Reranking.

Section Retrieve.

Variable embed : string -> Embedding.
Variable similarity : Embedding -> Embedding -> Z.
Variable resemblance : Embedding -> Embedding -> Z.
Variables relevance_weight diversity_weight : Z.
Variable fetch_k : nat.

Local Abbreviation retrieve :=
  (retrieve embed similarity resemblance relevance_weight diversity_weight
            fetch_k).
Local Abbreviation retrieved_scores :=
  (retrieved_scores embed similarity resemblance relevance_weight
                    diversity_weight fetch_k).
Local Abbreviation mmr :=
  (max_marginal_relevance similarity resemblance relevance_weight
                          diversity_weight fetch_k).

Lemma retrieve_length (s : strategy) (index : Index) (q : string) (k : nat) :
  List.length (retrieve s index q k)
  = match s with
    | Similarity => Nat.min k (List.length index)
    | MaxMarginalRelevance => Nat.min k (Nat.min fetch_k (List.length index))
    end.
Proof.
  unfold Retrieval.retrieve, search, search_entries.
  rewrite !length_map. destruct s.
  - apply nearest_length.
  - unfold max_marginal_relevance.
    now rewrite rerank_length, nearest_length.
Qed.

(** Under the plain nearest-neighbour strategy the scores come best
    first. *)
Lemma retrieve_similarity_ranked (index : Index) (q : string) (k : nat) :
  non_increasing (retrieved_scores Similarity index q k) = true.
Proof.
  unfold Retrieval.retrieved_scores, search, search_entries.
  rewrite map_map. cbn [snd].
  apply ranked_non_increasing.
  unfold nearest. apply ranked_firstn, rank_ranked.
Qed.

(** C1, as the diversity-aware strategy has it: [retrieve] returns at
    most [k] chunks, as many as [k], the candidate set and the index
    allow; they are entries of the index, in the order the re-ranking
    took them: the first is, of the [fetch_k] entries nearest to the
    query, the one that resembles the query most, and every one has
    the greatest marginal score (resemblance to the query lowered by
    the resemblance to the chunks returned before it) among the
    candidates not returned before it; from the second on, the
    marginal scores at which the chunks are taken do not increase. *)
Theorem retrieve_mmr_bounded_and_greedy (index : Index) (q : string) (k : nat) :
  retrieve MaxMarginalRelevance index q k = map chunk (mmr (embed q) k index)
  /\ retrieved_scores MaxMarginalRelevance index q k
     = map (relevance similarity (embed q)) (mmr (embed q) k index)
  /\ (List.length (retrieve MaxMarginalRelevance index q k) <= k)%nat
  /\ List.length (retrieve MaxMarginalRelevance index q k)
     = Nat.min k (Nat.min fetch_k (List.length index))
  /\ (forall e, In e (mmr (embed q) k index) ->
        In e (nearest similarity (embed q) fetch_k index) /\ In e index)
  /\ (forall c rest,
        mmr (embed q) k index = c :: rest ->
        forall e, In e (nearest similarity (embed q) fetch_k index) ->
          query_resemblance resemblance (embed q) e
          <= query_resemblance resemblance (embed q) c)
  /\ (forall pre c post,
        mmr (embed q) k index = pre ++ c :: post ->
        forall c',
          In c' (nearest similarity (embed q) fetch_k index) -> ~ In c' pre ->
          marginal resemblance relevance_weight diversity_weight (embed q) pre c'
          <= marginal resemblance relevance_weight diversity_weight (embed q)
               pre c)
  /\ (forall pre c1 c2 post,
        mmr (embed q) k index = pre ++ c1 :: c2 :: post ->
        pre <> [] -> 0 <= diversity_weight ->
        marginal resemblance relevance_weight diversity_weight (embed q)
                 (pre ++ [c1]) c2
        <= marginal resemblance relevance_weight diversity_weight (embed q)
             pre c1).
Proof.
  split; [|split; [|split; [|split; [|split; [|split; [|split]]]]]].
  - unfold Retrieval.retrieve, search. now rewrite map_map.
  - unfold Retrieval.retrieved_scores, search. now rewrite map_map.
  - rewrite retrieve_length. apply Nat.le_min_l.
  - apply retrieve_length.
  - intros e He. unfold max_marginal_relevance in He.
    apply rerank_In in He. split; [exact He | eapply nearest_In, He].
  - intros c rest H e He. unfold max_marginal_relevance in H.
    exact (rerank_greedy resemblance relevance_weight diversity_weight
             (embed q) k [] _ [] rest c H e He (fun F => F)).
  - intros pre c post H c' Hc' Hpre. unfold max_marginal_relevance in H.
    exact (rerank_greedy resemblance relevance_weight diversity_weight
             (embed q) k [] _ pre post c H c' Hc' Hpre).
  - intros pre c1 c2 post H Hne Hw. unfold max_marginal_relevance in H.
    exact (rerank_descends resemblance relevance_weight diversity_weight
             (embed q) k [] _ pre post c1 c2 H Hw Hne).
Qed.

End Retrieve.

(** The index of three chunks ["a"], ["aa"], ["bbb"] under the
    letter-count embedding and the default metric, re-ranked by the
    inner product, asked the empty query with the notebook's [k = 10]:
    the re-ranking returns ["a"], then ["bbb"] (unlike ["a"]), then
    ["aa"] (like ["a"]), although ["aa"] is closer to the query than
    ["bbb"].  Asked for ["b"], it returns ["bbb"] first, which is not
    the nearest entry. *)
Lemma example_db_mmr :
  max_marginal_relevance closeness inner_product 1 1 20 (letter_counts "") 10
                         example_db
  = [entry_a; entry_bbb; entry_aa]
  /\ max_marginal_relevance closeness inner_product 1 1 20 (letter_counts "b")
                            10 example_db
     = [entry_bbb; entry_a; entry_aa]
  /\ nearest closeness (letter_counts "b") 20 example_db
     = [entry_a; entry_bbb; entry_aa].
Proof. vm_compute. repeat split. Qed.

(** C1 as stated fails: the chunks the configured retriever returns
    are at most [k], but their relevance scores go down and up again. *)
Lemma as_retriever_scores_not_non_increasing :
  ~ ((List.length
        (as_retriever letter_counts closeness inner_product 1 1 20
                      example_db "") <= 10)%nat
     /\ non_increasing
          (retrieved_scores letter_counts closeness inner_product 1 1 20
             MaxMarginalRelevance example_db "" 10) = true).
Proof. intros [_ H]. vm_compute in H. discriminate H. Qed.

Lemma retrieve_mmr_bounded_and_greedy_witness :
  (forall e, In e (nearest closeness (letter_counts "b") 20 example_db) ->
     query_resemblance inner_product (letter_counts "b") e
     <= query_resemblance inner_product (letter_counts "b") entry_bbb)
  /\ marginal inner_product 1 1 (letter_counts "b") [entry_bbb] entry_aa
     <= marginal inner_product 1 1 (letter_counts "b") [entry_bbb] entry_a
  /\ marginal inner_product 1 1 (letter_counts "b") [entry_bbb; entry_a]
              entry_aa
     <= marginal inner_product 1 1 (letter_counts "b") [entry_bbb] entry_a.
Proof.
  pose proof (retrieve_mmr_bounded_and_greedy letter_counts closeness
                inner_product 1 1 20 example_db "b" 10)
    as (_ & _ & _ & _ & _ & Hfirst & Hgreedy & Hdown).
  split; [|split].
  - apply (Hfirst entry_bbb [entry_a; entry_aa]). vm_compute. reflexivity.
  - apply (Hgreedy [entry_bbb] entry_a [entry_aa]).
    + vm_compute. reflexivity.
    + vm_compute. right. right. left. reflexivity.
    + intros [H | []]. discriminate H.
  - apply (Hdown [entry_bbb] entry_a entry_aa []).
    + vm_compute. reflexivity.
    + discriminate.
    + lia.
Defined.

End RetrievalFacts.


(** ** Part III: the chunker *)

Module ChunkerFacts.

Import Chunker.
Local Open Scope nat_scope.
Local Open Scope list_scope.

(** *** Prefixes and whitespace *)

Lemma starts_with_app (sep rest : text) : starts_with sep (sep ++ rest) = true.
Proof.
  induction sep as [|a sep IH]; simpl; [reflexivity|].
  now rewrite Ascii.eqb_refl, IH.
Qed.

Lemma starts_with_split (sep t : text) :
  starts_with sep t = true -> exists rest, t = sep ++ rest.
Proof.
  revert t. induction sep as [|a sep IH]; intros t H.
  - now exists t.
  - destruct t as [|b t]; [discriminate|]. simpl in H.
    apply andb_prop in H as [Hab H]. apply Ascii.eqb_eq in Hab as ->.
    destruct (IH t H) as [rest ->]. now exists rest.
Qed.

Lemma starts_with_longer (sep t more : text) :
  starts_with sep t = true -> starts_with sep (t ++ more) = true.
Proof.
  intros H. apply starts_with_split in H as [rest ->].
  rewrite <- app_assoc. apply starts_with_app.
Qed.

Lemma starts_with_shorter (a b t : text) :
  starts_with (a ++ b) t = true -> starts_with a t = true.
Proof.
  intros H. apply starts_with_split in H as [rest ->].
  rewrite <- app_assoc. apply starts_with_app.
Qed.

Lemma starts_with_refl (t : text) : starts_with t t = true.
Proof. rewrite <- (app_nil_r t) at 2. apply starts_with_app. Qed.

Lemma length_lstrip (t : text) : List.length (lstrip t) <= List.length t.
Proof.
  induction t as [|c t IH]; simpl; [lia|].
  destruct (is_space c); simpl; lia.
Qed.

Lemma length_strip (t : text) : List.length (strip t) <= List.length t.
Proof.
  unfold strip, rstrip. rewrite length_rev.
  etransitivity; [apply length_lstrip|].
  rewrite length_rev. apply length_lstrip.
Qed.

Lemma lstrip_spec (t : text) :
  exists spaces, t = spaces ++ lstrip t /\ forallb is_space spaces = true.
Proof.
  induction t as [|c t (spaces & Ht & Hs)]; [now exists []|].
  simpl. destruct (is_space c) eqn:E.
  - exists (c :: spaces). simpl. rewrite E, Hs. split; [congruence|reflexivity].
  - now exists [].
Qed.

(** What [strip] removes is whitespace at the two ends. *)
Lemma strip_spec (t : text) :
  exists left right,
    t = left ++ strip t ++ right
    /\ forallb is_space left = true /\ forallb is_space right = true.
Proof.
  destruct (lstrip_spec t) as (l & Hl & Hls).
  destruct (lstrip_spec (rev (lstrip t))) as (r & Hr & Hrs).
  exists l, (rev r). unfold strip, rstrip. repeat split.
  - rewrite <- rev_app_distr, <- Hr, rev_involutive. exact Hl.
  - exact Hls.
  - rewrite forallb_forall in *. intros x Hx. apply Hrs.
    now apply in_rev.
Qed.

(** *** Cutting at a separator *)

Lemma scan_concat (sep : text) (t : text) (skip : nat) :
  fst (scan sep skip t) ++ List.concat (snd (scan sep skip t)) = t.
Proof.
  revert skip. induction t as [|c rest IH]; intros skip; [reflexivity|].
  cbn [scan].
  destruct ((skip =? 0) && starts_with sep (c :: rest)).
  - specialize (IH (List.length sep - 1)).
    destruct (scan sep (List.length sep - 1) rest) as [piece later].
    simpl in *. now rewrite IH.
  - specialize (IH (skip - 1)).
    destruct (scan sep (skip - 1) rest) as [piece later].
    simpl in *. now rewrite IH.
Qed.

Lemma concat_filter_nonempty (pieces : list text) :
  List.concat (filter nonempty pieces) = List.concat pieces.
Proof.
  induction pieces as [|p pieces IH]; [reflexivity|].
  destruct p; simpl; [exact IH | now rewrite IH].
Qed.

(** Cutting loses nothing. *)
Lemma split_keep_concat (sep t : text) : List.concat (split_keep sep t) = t.
Proof.
  unfold split_keep. pose proof (scan_concat sep t 0) as H.
  destruct (scan sep 0 t) as [piece later].
  rewrite concat_filter_nonempty. exact H.
Qed.

Lemma split_keep_nonempty (sep t piece : text) :
  In piece (split_keep sep t) -> piece <> [].
Proof.
  unfold split_keep. destruct (scan sep 0 t) as [p later].
  intros H. apply filter_In in H as [_ H]. now destruct piece.
Qed.

(** While a match is being passed, the characters go to the piece in
    progress. *)
Lemma scan_skip (sep : text) (t : text) (skip : nat) :
  firstn skip (fst (scan sep skip t)) = firstn skip t.
Proof.
  revert skip. induction t as [|c rest IH]; intros [|skip]; try reflexivity.
  cbn [scan Nat.eqb andb]. specialize (IH (S skip - 1)).
  destruct (scan sep (S skip - 1) rest) as [piece later].
  simpl in *. rewrite Nat.sub_0_r in IH. now rewrite IH.
Qed.

Lemma starts_with_firstn (sep t : text) :
  starts_with sep t = true <-> firstn (List.length sep) t = sep.
Proof.
  split.
  - intros H. apply starts_with_split in H as [rest ->].
    rewrite firstn_app, Nat.sub_diag, firstn_all. simpl. apply app_nil_r.
  - intros H. rewrite <- (firstn_skipn (List.length sep) t), H.
    apply starts_with_app.
Qed.

(** A piece is not cut again by the separator that made it. *)
Lemma scan_pieces_fixed (sep : text) (t : text) (skip : nat) :
  scan sep skip (fst (scan sep skip t)) = (fst (scan sep skip t), [])
  /\ Forall (fun piece => scan sep 0 piece = ([], [piece]))
            (snd (scan sep skip t)).
Proof.
  revert skip. induction t as [|c rest IH]; intros skip.
  - split; [reflexivity | constructor].
  - cbn [scan].
    destruct ((skip =? 0) && starts_with sep (c :: rest)) eqn:Hcut.
    + apply andb_prop in Hcut as [_ Hsep].
      destruct (IH (List.length sep - 1)) as [Hfirst Hlater].
      pose proof (scan_skip sep rest (List.length sep - 1)) as Hskip.
      destruct (scan sep (List.length sep - 1) rest) as [piece later].
      cbn [fst snd] in *. split; [reflexivity|].
      constructor; [|exact Hlater].
      cbn [scan Nat.eqb andb].
      assert (Hp : starts_with sep (c :: piece) = true).
      { destruct sep as [|a sep]; [reflexivity|].
        simpl in Hsep |- *. apply andb_prop in Hsep as [-> Hsep].
        simpl in Hskip. rewrite Nat.sub_0_r in Hskip.
        apply starts_with_firstn. rewrite Hskip.
        now apply starts_with_firstn. }
      rewrite Hp, Hfirst. reflexivity.
    + destruct (IH (skip - 1)) as [Hfirst Hlater].
      pose proof (scan_concat sep rest (skip - 1)) as Hcat.
      destruct (scan sep (skip - 1) rest) as [piece later].
      cbn [fst snd] in *. split; [|exact Hlater].
      cbn [scan].
      assert (Hp : (skip =? 0) && starts_with sep (c :: piece) = false).
      { destruct (skip =? 0); [|reflexivity]. simpl in Hcut |- *.
        destruct (starts_with sep (c :: piece)) eqn:E; [|reflexivity].
        rewrite <- Hcut, <- Hcat.
        change (c :: piece ++ List.concat later)
          with ((c :: piece) ++ List.concat later).
        symmetry. now apply starts_with_longer. }
      rewrite Hp, Hfirst. reflexivity.
Qed.

Lemma split_keep_fixed (sep t piece : text) :
  In piece (split_keep sep t) -> split_keep sep piece = [piece].
Proof.
  unfold split_keep. intros H.
  destruct (scan_pieces_fixed sep t 0) as [Hfirst Hlater].
  destruct (scan sep 0 t) as [p later]. cbn [fst snd] in *.
  apply filter_In in H as [[<- | H] Hne].
  - rewrite Hfirst. simpl. now rewrite Hne.
  - rewrite Forall_forall in Hlater. rewrite (Hlater _ H).
    simpl. now rewrite Hne.
Qed.

Lemma scan_no_match (sep : text) (t : text) (skip : nat) :
  occurs sep t = false -> scan sep skip t = (t, []).
Proof.
  revert skip. induction t as [|c rest IH]; intros skip H; [reflexivity|].
  cbn [occurs] in H. apply orb_false_elim in H as [Hhere Hrest].
  cbn [scan]. rewrite Hhere, andb_false_r, (IH _ Hrest). reflexivity.
Qed.

Lemma split_keep_no_match (sep t : text) :
  occurs sep t = false -> t <> [] -> split_keep sep t = [t].
Proof.
  intros H Ht. unfold split_keep. rewrite (scan_no_match _ _ _ H).
  destruct t; [contradiction | reflexivity].
Qed.

(** The empty separator cuts between all characters. *)
Lemma split_keep_characters (t : text) :
  split_keep [] t = map (fun c => [c]) t.
Proof.
  unfold split_keep.
  assert (H : forall t, scan [] 0 t = ([], map (fun c => [c]) t)).
  { clear t. induction t as [|c rest IH]; [reflexivity|].
    cbn [scan Nat.eqb andb starts_with List.length Nat.sub].
    now rewrite IH. }
  rewrite H. cbn [filter nonempty]. clear H.
  induction t as [|c rest IH]; [reflexivity|].
  cbn [map filter nonempty]. now rewrite IH.
Qed.

(** *** Where a separator is found *)














(** *** Merging pieces *)

Lemma total_length_app (a b : list text) :
  total_length (a ++ b) = total_length a + total_length b.
Proof. induction a as [|x a IH]; simpl; lia. Qed.

Lemma total_length_concat (pieces : list text) :
  List.length (List.concat pieces) = total_length pieces.
Proof.
  induction pieces as [|x pieces IH]; simpl; [reflexivity|].
  now rewrite length_app, IH.
Qed.

Lemma emit_untrimmed (current : list text) :
  emit false current
  = match List.concat current with
    | [] => []
    | _ :: _ => [List.concat current]
    end.
Proof. unfold emit, join_docs. now destruct (List.concat current). Qed.

Lemma emit_length (flag : bool) (current : list text) (c : text) :
  In c (emit flag current) -> List.length c <= total_length current.
Proof.
  unfold emit, join_docs. rewrite <- total_length_concat.
  pose proof (length_strip (List.concat current)) as Hs.
  destruct flag.
  - destruct (strip (List.concat current)); intros H;
      [destruct H | destruct H as [<- | []]; exact Hs].
  - destruct (List.concat current); intros H;
      [destruct H | destruct H as [<- | []]; lia].
Qed.

Lemma emit_trimmed (flag : bool) (current : list text) :
  trimmed_from (emit flag current) (emit false current).
Proof.
  rewrite emit_untrimmed. unfold emit, join_docs. destruct flag.
  - destruct (List.concat current) as [|x j] eqn:Ej; [constructor|].
    destruct (strip (x :: j)) as [|y k] eqn:Es.
    + apply trimmed_blank; [exact Es | constructor].
    + rewrite <- Es. apply trimmed_strip; [congruence | constructor].
  - destruct (List.concat current) as [|x j]; repeat constructor.
Qed.

Lemma trimmed_from_refl (chunks : list text) : trimmed_from chunks chunks.
Proof. induction chunks; now constructor. Qed.

Lemma trimmed_from_app (a a' b b' : list text) :
  trimmed_from a a' -> trimmed_from b b' -> trimmed_from (a ++ b) (a' ++ b').
Proof. induction 1; intros Hb; simpl; try constructor; auto. Qed.

Lemma trimmed_from_length (chunks ss : list text) :
  trimmed_from chunks ss -> List.length chunks <= List.length ss.
Proof. induction 1; simpl; lia. Qed.

(** *** Chunks that give the text back *)

Lemma concat_snoc (pieces : list text) (d : text) :
  List.concat (pieces ++ [d]) = List.concat pieces ++ d.
Proof. rewrite concat_app. simpl. now rewrite app_nil_r. Qed.

Lemma stitches_empty (n : nat) (t : text) : stitches n [] t -> t = [].
Proof. now inversion 1. Qed.

(** The text begins with the first chunk. *)
Lemma stitches_head (n : nat) (c : text) (rest : list text) (t : text) :
  stitches n (c :: rest) t -> exists after, t = c ++ after.
Proof.
  remember (c :: rest) as chunks eqn:E. intros H. revert c rest E.
  induction H as [|c0|before shared c0 rest0 t0 Hn Hs H IH];
    intros c rest E; [discriminate| |]; injection E as <- <-.
  - exists []. now rewrite app_nil_r.
  - destruct (IH _ _ eq_refl) as [after ->].
    apply starts_with_split in Hs as [fresh ->].
    exists (fresh ++ after). now rewrite <- !app_assoc.
Qed.

Lemma stitches_app (n : nat) (a b : list text) (ta tb : text) :
  stitches n a ta -> stitches n b tb -> stitches n (a ++ b) (ta ++ tb).
Proof.
  intros Ha Hb.
  induction Ha as [|c|before shared c rest t Hn Hs H IH]; [exact Hb| |].
  - destruct b as [|c2 b].
    + apply stitches_empty in Hb as ->. simpl. rewrite app_nil_r. constructor.
    + assert (Hn : List.length (@nil ascii) <= n) by (simpl; lia).
      pose proof (stitches_cons n c [] c2 b tb Hn eq_refl Hb) as H.
      now rewrite app_nil_r in H.
  - rewrite <- app_assoc. simpl. apply stitches_cons; assumption.
Qed.

(** The chunks together are at least as long as the text. *)
Lemma stitches_length (n : nat) (chunks : list text) (t : text) :
  stitches n chunks t -> List.length t <= total_length chunks.
Proof.
  induction 1 as [|c|before shared c rest t Hn Hs H IH]; simpl in *; try lia.
  rewrite !length_app. lia.
Qed.

Lemma stitches_covers (n : nat) (chunks : list text) (t : text) :
  stitches n chunks t -> covers chunks t.
Proof.
  induction 1 as [|c|before shared c rest t Hn Hs H IH]; intros p Hp.
  - simpl in Hp. lia.
  - exists c, 0. repeat split; [now left| |lia|simpl; lia].
    exists [], []. now rewrite app_nil_r.
  - destruct (Nat.lt_ge_cases p (List.length (before ++ shared))) as [Hlt | Hge].
    + exists (before ++ shared), 0. repeat split; [now left| |lia|simpl; lia].
      destruct (stitches_head _ _ _ _ H) as [after ->].
      apply starts_with_split in Hs as [fresh ->].
      exists [], (fresh ++ after). split; [|reflexivity].
      simpl. now rewrite <- !app_assoc.
    + rewrite length_app in Hp, Hge.
      destruct (IH (p - List.length before)) as (c' & off & Hin & Hocc & Hoff);
        [lia|].
      destruct Hocc as (b' & a' & -> & Hb').
      exists c', (List.length before + off). repeat split; [now right| |lia|lia].
      exists (before ++ b'), a'. split.
      * now rewrite <- app_assoc.
      * rewrite length_app. lia.
Qed.

Section Merging.

Variables chunk_size chunk_overlap : nat.

Local Abbreviation drop_front := (drop_front chunk_size chunk_overlap).
Local Abbreviation merge := (merge chunk_size chunk_overlap).

Lemma drop_front_suffix (len : nat) (current : list text) :
  exists dropped, current = dropped ++ drop_front len current.
Proof.
  induction current as [|x current (dropped & IH)]; [now exists []|].
  cbn [Chunker.drop_front].
  destruct ((chunk_overlap <? total_length (x :: current))
            || ((chunk_size <? total_length (x :: current) + len)
                && (0 <? total_length (x :: current)))).
  - exists (x :: dropped). simpl. congruence.
  - now exists [].
Qed.

Lemma drop_front_kept (len : nat) (current : list text) :
  total_length (drop_front len current) <= chunk_overlap
  /\ (total_length (drop_front len current) + len <= chunk_size
      \/ total_length (drop_front len current) = 0).
Proof.
  induction current as [|x current IH]; [simpl; lia|].
  cbn [Chunker.drop_front].
  destruct ((chunk_overlap <? total_length (x :: current))
            || ((chunk_size <? total_length (x :: current) + len)
                && (0 <? total_length (x :: current)))) eqn:E; [exact IH|].
  apply orb_false_elim in E as [E1 E2]. apply Nat.ltb_ge in E1.
  split; [exact E1|].
  apply andb_false_elim in E2 as [E2 | E2]; apply Nat.ltb_ge in E2; lia.
Qed.

(** A merged chunk is never longer than [chunk_size]. *)
Lemma merge_bound (flag : bool) (splits current : list text) :
  (forall d, In d splits -> List.length d <= chunk_size) ->
  total_length current <= chunk_size ->
  forall c, In c (merge flag current splits) -> List.length c <= chunk_size.
Proof.
  revert current. induction splits as [|d more IH]; intros current Hs Hc c Hin.
  - simpl in Hin. apply emit_length in Hin. lia.
  - cbn [Chunker.merge] in Hin.
    assert (Hd : List.length d <= chunk_size) by (apply Hs; now left).
    assert (Hmore : forall x, In x more -> List.length x <= chunk_size)
      by (intros x Hx; apply Hs; now right).
    destruct (chunk_size <? total_length current + List.length d) eqn:E.
    + destruct current as [|x current].
      * apply (IH [d]); auto. simpl. lia.
      * apply in_app_or in Hin as [Hin | Hin].
        -- apply emit_length in Hin. lia.
        -- eapply IH; [exact Hmore | | exact Hin].
           rewrite total_length_app. cbn [total_length].
           destruct (drop_front_kept (List.length d) (x :: current))
             as [_ [H | H]]; lia.
    + apply Nat.ltb_ge in E. eapply IH; [exact Hmore | | exact Hin].
      rewrite total_length_app. simpl. lia.
Qed.

(** The trimmed chunks come from the untrimmed ones, one for one. *)
Lemma merge_trimmed (flag : bool) (splits current : list text) :
  trimmed_from (merge flag current splits) (merge false current splits).
Proof.
  revert current. induction splits as [|d more IH]; intros current.
  - apply emit_trimmed.
  - cbn [Chunker.merge].
    destruct (chunk_size <? total_length current + List.length d).
    + destruct current as [|x current]; [apply IH|].
      apply trimmed_from_app; [apply emit_trimmed | apply IH].
    + apply IH.
Qed.

(** Pieces that fit together in one chunk make one chunk. *)
Lemma merge_fits (flag : bool) (splits current : list text) :
  total_length (current ++ splits) <= chunk_size ->
  merge flag current splits = emit flag (current ++ splits).
Proof.
  revert current. induction splits as [|d more IH]; intros current H.
  - now rewrite app_nil_r.
  - cbn [Chunker.merge]. rewrite total_length_app in H. simpl in H.
    destruct (chunk_size <? total_length current + List.length d) eqn:E.
    + apply Nat.ltb_lt in E. lia.
    + rewrite IH.
      * now rewrite <- app_assoc.
      * rewrite !total_length_app. simpl. lia.
Qed.

(** The untrimmed chunks of a merge give the pieces back, and the
    first of them begins with the pieces it was opened with. *)
Lemma merge_stitches (splits current : list text) :
  stitches chunk_overlap (merge false current splits)
           (List.concat current ++ List.concat splits)
  /\ (forall c rest,
        merge false current splits = c :: rest ->
        starts_with (List.concat current) c = true).
Proof.
  revert current. induction splits as [|d more IH]; intros current.
  - cbn [Chunker.merge]. rewrite emit_untrimmed, app_nil_r.
    destruct (List.concat current) as [|x j]; split.
    + constructor.
    + discriminate.
    + constructor.
    + intros c rest E. injection E as <- _. apply starts_with_refl.
  - cbn [Chunker.merge]. cbn [List.concat].
    destruct (chunk_size <? total_length current + List.length d).
    + destruct current as [|x current'].
      * destruct (IH [d]) as [Hst _]. split; [|reflexivity].
        simpl in *. now rewrite app_nil_r in Hst.
      * remember (x :: current') as current eqn:Ec. clear Ec x current'.
        destruct (drop_front_suffix (List.length d) current)
          as [dropped Hsuf].
        destruct (drop_front_kept (List.length d) current) as [Hkept _].
        destruct (IH (drop_front (List.length d) current ++ [d]))
          as [Hst Hhd].
        remember (drop_front (List.length d) current) as kept eqn:Ek.
        clear Ek. subst current. rewrite concat_snoc in Hst, Hhd.
        rewrite emit_untrimmed, concat_app.
        destruct (List.concat dropped ++ List.concat kept) as [|y j] eqn:Ej.
        -- apply app_eq_nil in Ej as [_ Ej]. rewrite Ej in *.
           split; [exact Hst | reflexivity].
        -- rewrite <- Ej. clear Ej y j. split.
           ++ simpl.
              destruct (merge false (kept ++ [d]) more) as [|c2 rest] eqn:Em.
              ** apply stitches_empty in Hst.
                 apply app_eq_nil in Hst as [Hst ->].
                 apply app_eq_nil in Hst as [-> ->].
                 rewrite !app_nil_r. constructor.
              ** rewrite <- app_assoc.
                 apply stitches_cons.
                 --- now rewrite total_length_concat.
                 --- eapply starts_with_shorter, Hhd. reflexivity.
                 --- now rewrite <- app_assoc in Hst.
           ++ intros c rest E. injection E as <- _. apply starts_with_refl.
    + destruct (IH (current ++ [d])) as [Hst Hhd].
      rewrite concat_snoc in Hst, Hhd. split.
      * now rewrite <- app_assoc in Hst.
      * intros c rest E. eapply starts_with_shorter, Hhd, E.
Qed.

End Merging.

(** *** The recursion over the separators *)

Lemma forallb_false {A : Type} (f : A -> bool) (l : list A) :
  forallb f l = false -> exists x, In x l /\ f x = false.
Proof.
  induction l as [|x l IH]; [discriminate|]. simpl.
  destruct (f x) eqn:E; simpl.
  - intros H. destruct (IH H) as (y & Hy & Hf). exists y. auto.
  - intros _. exists x. auto.
Qed.

Lemma total_length_zero (pieces : list text) :
  total_length pieces = 0 -> (forall p, In p pieces -> p <> []) -> pieces = [].
Proof.
  destruct pieces as [|p pieces]; [reflexivity|]. intros H Hne.
  destruct p as [|c p]; [|discriminate].
  exfalso. apply (Hne []); [now left | reflexivity].
Qed.

(** Among non-empty pieces, one as long as all of them is alone. *)
Lemma lone_piece (pieces : list text) (piece : text) :
  (forall p, In p pieces -> p <> []) ->
  In piece pieces -> total_length pieces <= List.length piece ->
  pieces = [piece].
Proof.
  intros Hne Hin Hlen. apply in_split in Hin as (l1 & l2 & ->).
  rewrite total_length_app in Hlen. simpl in Hlen.
  rewrite (total_length_zero l1), (total_length_zero l2); try reflexivity;
    try lia; intros p Hp; apply Hne, in_or_app; [right; now right | now left].
Qed.

Lemma emit_nothing (flag : bool) : emit flag [] = [].
Proof. now destruct flag. Qed.

Section Recursion.

Variables chunk_size chunk_overlap : nat.

Local Abbreviation merge := (merge chunk_size chunk_overlap).
Local Abbreviation collect := (collect chunk_size chunk_overlap).
Local Abbreviation process := (process chunk_size chunk_overlap).
Local Abbreviation split_text := (split_text chunk_size chunk_overlap).

Lemma collect_stitches (recur : text -> list text) :
  (forall piece, stitches chunk_overlap (recur piece) piece) ->
  forall splits good,
    stitches chunk_overlap (collect false recur good splits)
             (List.concat good ++ List.concat splits).
Proof.
  intros Hrec. induction splits as [|piece more IH]; intros good.
  - cbn [Chunker.collect].
    destruct (merge_stitches chunk_size chunk_overlap good []) as [H _].
    simpl in *. now rewrite app_nil_r.
  - cbn [Chunker.collect List.concat].
    destruct (List.length piece <? chunk_size).
    + specialize (IH (good ++ [piece])).
      rewrite concat_snoc, <- app_assoc in IH. exact IH.
    + apply stitches_app; [|apply stitches_app; [apply Hrec | apply (IH [])]].
      destruct (merge_stitches chunk_size chunk_overlap good []) as [H _].
      exact H.
Qed.

Lemma collect_trimmed (flag : bool) (recur recur0 : text -> list text) :
  (forall piece, trimmed_from (recur piece) (recur0 piece)) ->
  forall splits good,
    trimmed_from (collect flag recur good splits)
                 (collect false recur0 good splits).
Proof.
  intros Hrec. induction splits as [|piece more IH]; intros good.
  - apply merge_trimmed.
  - cbn [Chunker.collect]. destruct (List.length piece <? chunk_size).
    + apply IH.
    + repeat apply trimmed_from_app; [apply merge_trimmed | apply Hrec | apply IH].
Qed.

Lemma collect_bound (flag : bool) (recur : text -> list text)
    (P : text -> Prop) :
  (forall c, List.length c <= chunk_size -> P c) ->
  forall splits good,
    (forall d, In d good -> List.length d <= chunk_size) ->
    (forall piece, In piece splits -> chunk_size <= List.length piece ->
       forall c, In c (recur piece) -> P c) ->
    forall c, In c (collect flag recur good splits) -> P c.
Proof.
  intros HP. induction splits as [|piece more IH]; intros good Hgood Hrec c Hc.
  - apply HP.
    apply (merge_bound chunk_size chunk_overlap flag good []);
      [exact Hgood | simpl; lia | exact Hc].
  - cbn [Chunker.collect] in Hc.
    destruct (List.length piece <? chunk_size) eqn:E.
    + apply Nat.ltb_lt in E. eapply IH; [| |exact Hc].
      * intros d Hd. apply in_app_or in Hd as [Hd | [<- | []]]; [auto | lia].
      * intros p Hp. apply Hrec. now right.
    + apply Nat.ltb_ge in E.
      apply in_app_or in Hc as [Hc | Hc]; [|apply in_app_or in Hc as [Hc | Hc]].
      * apply HP.
    apply (merge_bound chunk_size chunk_overlap flag good []);
      [exact Hgood | simpl; lia | exact Hc].
      * eapply Hrec; [now left | exact E | exact Hc].
      * eapply IH; [| |exact Hc].
        -- intros d [].
        -- intros p Hp. apply Hrec. now right.
Qed.

Lemma collect_fits (flag : bool) (recur : text -> list text)
    (splits good : list text) :
  total_length (good ++ splits) <= chunk_size ->
  forallb (fun piece => List.length piece <? chunk_size) splits = true ->
  collect flag recur good splits = emit flag (good ++ splits).
Proof.
  revert good. induction splits as [|piece more IH]; intros good Hlen Hall.
  - cbn [Chunker.collect]. rewrite app_nil_r in *.
    rewrite (merge_fits chunk_size chunk_overlap flag good []); [reflexivity|].
    exact Hlen.
  - cbn [Chunker.collect]. simpl in Hall.
    apply andb_prop in Hall as [-> Hall].
    rewrite IH; [now rewrite <- app_assoc | now rewrite <- app_assoc | exact Hall].
Qed.

(** A text that fits in one chunk is cut at a separator and put
    together again, or handed on whole. *)
Lemma process_fits (flag : bool) (sep : text) (recur : text -> list text)
    (t : text) :
  List.length t <= chunk_size ->
  process flag sep recur t = emit flag [t]
  \/ process flag sep recur t = recur t.
Proof.
  intros Hlen. unfold Chunker.process.
  pose proof (split_keep_concat sep t) as Hcat.
  pose proof (split_keep_nonempty sep t) as Hne.
  destruct (forallb (fun piece => List.length piece <? chunk_size)
                    (split_keep sep t)) eqn:Hall.
  - left. rewrite collect_fits; [|simpl|exact Hall].
    + simpl. unfold emit, join_docs. rewrite Hcat. simpl.
      now rewrite app_nil_r.
    + now rewrite <- total_length_concat, Hcat.
  - right. apply forallb_false in Hall as (piece & Hin & Hbig).
    apply Nat.ltb_ge in Hbig.
    assert (Hone : split_keep sep t = [piece]).
    { apply lone_piece; [exact Hne | exact Hin|].
      rewrite <- total_length_concat, Hcat. lia. }
    rewrite Hone in *. simpl in Hcat. rewrite app_nil_r in Hcat. subst piece.
    cbn [Chunker.collect].
    apply Nat.ltb_ge in Hbig. rewrite Hbig.
    cbn [Chunker.merge]. now rewrite emit_nothing, app_nil_r.
Qed.

Lemma split_text_stitches (finer : list text) (sep t : text) :
  stitches chunk_overlap (split_text false sep finer t) t.
Proof.
  revert sep t.
  assert (Hp : forall sep recur t,
             (forall piece, stitches chunk_overlap (recur piece) piece) ->
             stitches chunk_overlap (process false sep recur t) t).
  { intros sep recur t Hrec. unfold Chunker.process.
    pose proof (collect_stitches recur Hrec (split_keep sep t) []) as H.
    simpl in H. now rewrite split_keep_concat in H. }
  induction finer as [|sep' finer' IH]; intros sep t; cbn [Chunker.split_text].
  - apply Hp. intros piece. constructor.
  - destruct (negb (nonempty sep)).
    + apply Hp. intros piece. constructor.
    + destruct (occurs sep t); [apply Hp|]; apply IH.
Qed.

Lemma split_text_trimmed (flag : bool) (finer : list text) (sep t : text) :
  trimmed_from (split_text flag sep finer t) (split_text false sep finer t).
Proof.
  revert sep t.
  induction finer as [|sep' finer' IH]; intros sep t; cbn [Chunker.split_text].
  - apply collect_trimmed. intros piece. apply trimmed_from_refl.
  - destruct (negb (nonempty sep)).
    + apply collect_trimmed. intros piece. apply trimmed_from_refl.
    + destruct (occurs sep t); [apply collect_trimmed|]; apply IH.
Qed.

(** A chunk is at most [chunk_size] long, or it is a piece that the
    finest separator does not cut. *)
Lemma split_text_bound (flag : bool) (finer : list text) (sep t : text) :
  forall c, In c (split_text flag sep finer t) ->
    List.length c <= chunk_size
    \/ (chunk_size <= List.length c /\ split_keep (finest sep finer) c = [c]).
Proof.
  revert sep t.
  assert (Hw : forall sep t c,
             In c (process flag sep whole t) ->
             List.length c <= chunk_size
             \/ (chunk_size <= List.length c /\ split_keep sep c = [c])).
  { intros sep t. unfold Chunker.process.
    apply collect_bound; [now left | intros d [] |].
    intros piece Hin Hbig c [<- | []]. right. split; [exact Hbig|].
    eapply split_keep_fixed, Hin. }
  induction finer as [|sep' finer' IH]; intros sep t;
    cbn [Chunker.split_text finest].
  - apply Hw.
  - destruct (negb (nonempty sep)); [apply Hw|].
    destruct (occurs sep t); [|apply IH].
    unfold Chunker.process.
    apply collect_bound; [now left | intros d [] |].
    intros piece _ _. apply IH.
Qed.

(** A text that fits in one chunk gives one chunk: the text, trimmed
    or as it is. *)
Lemma split_text_fits (flag : bool) (finer : list text) (sep t : text) :
  List.length t <= chunk_size ->
  strip t <> [] ->
  exists c, split_text flag sep finer t = [c] /\ (c = t \/ c = strip t).
Proof.
  intros Hlen Hne. revert sep.
  assert (He : exists c, emit flag [t] = [c] /\ (c = t \/ c = strip t)).
  { unfold emit, join_docs. simpl. rewrite app_nil_r. destruct flag.
    - destruct (strip t) eqn:E; [contradiction|]. eauto.
    - destruct t; [now simpl in Hne|]. eauto. }
  assert (Hw : forall sep,
             exists c, process flag sep whole t = [c]
                       /\ (c = t \/ c = strip t)).
  { intros sep.
    destruct (process_fits flag sep whole t Hlen) as [-> | ->];
      [exact He | exists t; auto]. }
  induction finer as [|sep' finer' IH]; intros sep; cbn [Chunker.split_text].
  - apply Hw.
  - destruct (negb (nonempty sep)); [apply Hw|].
    destruct (occurs sep t); [|apply IH].
    destruct (process_fits flag sep (split_text flag sep' finer') t Hlen)
      as [-> | ->]; [exact He | apply IH].
Qed.









End Recursion.

(** *** The chunks of a document *)

Lemma split_documents_one (sp : Splitter) (d : Document) :
  split_documents sp [d]
  = map (fun c => mkDocument (string_of_list_ascii c) (metadata d))
        (chunk_texts sp (lit (page_content d))).
Proof. unfold split_documents. simpl. apply app_nil_r. Qed.

(** With the separators of Python, the last of which cuts between
    characters, no chunk is longer than 750 characters, trimmed or
    not. *)
Lemma code_splitter_bound (flag : bool) (t c : text) :
  In c (split_text 750 75 flag (separator code_splitter)
                   (finer_separators code_splitter) t) ->
  List.length c <= 750.
Proof.
  intros H. apply split_text_bound in H as [H | [Hbig Hone]]; [exact H|].
  change (finest (separator code_splitter) (finer_separators code_splitter))
    with (@nil ascii) in Hone.
  rewrite split_keep_characters in Hone.
  apply (f_equal (@List.length text)) in Hone.
  rewrite length_map in Hone. simpl in Hone. lia.
Qed.



(** C2, as the splitter has it: before their ends are trimmed the
    chunks are stretches of the text that, each without what it
    shares with the one before, give the text back, so that every
    position lies in one of them; a chunk is such a stretch without
    the whitespace at its ends, and a stretch of whitespace gives no
    chunk.  Without trimming the chunks are the stretches. *)
Theorem chunks_cover_up_to_trimming (sp : Splitter) (t : text) :
  stitches (chunk_overlap sp) (stretches sp t) t
  /\ covers (stretches sp t) t
  /\ trimmed_from (chunk_texts sp t) (stretches sp t)
  /\ (strip_whitespace sp = false -> chunk_texts sp t = stretches sp t).
Proof.
  assert (Hst : stitches (chunk_overlap sp) (stretches sp t) t)
    by apply split_text_stitches.
  repeat split.
  - exact Hst.
  - eapply stitches_covers, Hst.
  - apply split_text_trimmed.
  - unfold chunk_texts, stretches. now intros ->.
Qed.

Lemma chunks_cover_up_to_trimming_witness :
  chunk_texts (mkSplitter [Str.nl] [] 10 2 false) two_lines
  = stretches (mkSplitter [Str.nl] [] 10 2 false) two_lines.
Proof.
  apply (chunks_cover_up_to_trimming (mkSplitter [Str.nl] [] 10 2 false)
           two_lines).
  reflexivity.
Defined.

Lemma code_splitter_import_line :
  chunk_texts code_splitter import_line = [lit "import os"].
Proof. vm_compute. reflexivity. Qed.

(** C2 as stated fails: the only chunk of the one-line file is the
    line without its line feed, which gives back neither the last
    position nor the text. *)
Lemma code_splitter_loses_line_feed :
  ~ (covers (chunk_texts code_splitter import_line) import_line
     /\ stitches 75 (chunk_texts code_splitter import_line) import_line).
Proof.
  rewrite code_splitter_import_line. intros [_ H].
  inversion H.
Qed.

Lemma fifty_line_function_chunks :
  List.length fifty_line_function = 1386
  /\ map (@List.length ascii) (chunk_texts code_splitter fifty_line_function)
     = [725; 712].
Proof. vm_compute. split; reflexivity. Qed.

(** C3 as stated fails: the function of 1386 characters is split in
    two chunks, not in three. *)
Lemma fifty_line_function_not_three_chunks :
  ~ ((List.length fifty_line_function <= 750 ->
      List.length (chunk_texts code_splitter fifty_line_function) = 1)
     /\ (750 < List.length fifty_line_function ->
         List.length (chunk_texts code_splitter fifty_line_function)
         = ceil_div (List.length fifty_line_function) (750 - 75))).
Proof.
  intros [_ H].
  assert (Hlong : 750 < List.length fifty_line_function)
    by (apply Nat.ltb_lt; vm_compute; reflexivity).
  specialize (H Hlong). vm_compute in H. discriminate H.
Qed.

(** C3, as the splitter has it: a text of at most 750 characters
    that is not blank gives exactly one chunk, the text itself,
    trimmed or as it is; a longer one is cut into stretches of at most 750
    characters that give the text back, consecutive ones sharing at
    most 75 characters, so that there are at least as many as 750
    goes into the length, and the chunks are these stretches trimmed,
    the blank ones left out. *)
Theorem code_splitter_chunk_count (t : text) :
  (List.length t <= 750 -> strip t <> [] ->
   exists c, chunk_texts code_splitter t = [c] /\ (c = t \/ c = strip t))
  /\ (750 < List.length t ->
      stitches 75 (stretches code_splitter t) t
      /\ Forall (fun s => List.length s <= 750) (stretches code_splitter t)
      /\ List.length t <= 750 * List.length (stretches code_splitter t)
      /\ 2 <= List.length (stretches code_splitter t)
      /\ trimmed_from (chunk_texts code_splitter t)
                      (stretches code_splitter t)
      /\ List.length (chunk_texts code_splitter t)
         <= List.length (stretches code_splitter t)).
Proof.
  split.
  - intros Hlen Hne. now apply split_text_fits.
  - intros Hlong.
    assert (Hst : stitches 75 (stretches code_splitter t) t)
      by apply (split_text_stitches 750 75).
    assert (Hb : Forall (fun s => List.length s <= 750)
                        (stretches code_splitter t)).
    { apply Forall_forall. intros c Hc. eapply code_splitter_bound, Hc. }
    assert (Hn : List.length t <= 750 * List.length (stretches code_splitter t)).
    { apply stitches_length in Hst. etransitivity; [exact Hst|].
      clear Hst. induction Hb as [|c l Hc Hl IH]; simpl in *; lia. }
    assert (Htr : trimmed_from (chunk_texts code_splitter t)
                               (stretches code_splitter t))
      by apply (split_text_trimmed 750 75).
    repeat split; try assumption.
    + lia.
    + now apply trimmed_from_length.
Qed.

Lemma code_splitter_chunk_count_witness :
  (exists c, chunk_texts code_splitter import_line = [c]
             /\ (c = import_line \/ c = strip import_line))
  /\ 2 <= List.length (stretches code_splitter fifty_line_function).
Proof.
  split.
  - apply (code_splitter_chunk_count import_line).
    + vm_compute. repeat constructor.
    + vm_compute. discriminate.
  - apply (code_splitter_chunk_count fifty_line_function).
    apply Nat.ltb_lt. vm_compute. reflexivity.
Defined.

End ChunkerFacts.


(** * Further properties *)

(** ** The formatter and the prompt *)

Module FormatterFacts.

Local Open Scope nat_scope.

Lemma join_length (sep : string) (parts : list string) :
  String.length (Str.join sep parts)
  = list_sum (map String.length parts)
    + String.length sep * (List.length parts - 1).
Proof.
  induction parts as [|x [|y rest] IH].
  - simpl. lia.
  - simpl. lia.
  - rewrite StrFacts.join_cons2, !StrFacts.length_append, IH.
    cbn [map list_sum fold_right List.length]. unfold list_sum. lia.
Qed.

Lemma join_app (sep : string) (a b : list string) :
  a <> [] -> b <> [] ->
  Str.join sep (a ++ b) = (Str.join sep a ++ sep ++ Str.join sep b)%string.
Proof.
  intros Ha Hb. induction a as [|x [|y rest] IH]; [contradiction| |].
  - destruct b as [|z b]; [contradiction|]. reflexivity.
  - change ((x :: y :: rest) ++ b)%list with (x :: y :: (rest ++ b))%list.
    rewrite !StrFacts.join_cons2.
    change (y :: (rest ++ b))%list with ((y :: rest) ++ b)%list.
    rewrite IH by discriminate.
    now rewrite !StrFacts.append_assoc.
Qed.

(** X1: the length of the context: the lengths of the documents' texts
    and two line feeds between each two of them. *)
Theorem format_docs_length (docs : list Document) :
  String.length (format_docs docs)
  = list_sum (map (fun d => String.length (page_content d)) docs)
    + 2 * (List.length docs - 1).
Proof.
  unfold format_docs. rewrite join_length, map_map, length_map.
  reflexivity.
Qed.

(** X2: formatting two batches of documents together is formatting each
    and joining the two contexts with the separator; the result is
    the same as formatting two documents that hold the two contexts,
    so the boundaries between documents cannot be read back. *)
Theorem format_docs_app (a b : list Document) :
  a <> [] -> b <> [] ->
  format_docs (a ++ b)
  = (format_docs a ++ String Str.nl (String Str.nl "") ++ format_docs b)%string
  /\ forall ma mb,
       format_docs (a ++ b)
       = format_docs [mkDocument (format_docs a) ma;
                      mkDocument (format_docs b) mb].
Proof.
  intros Ha Hb.
  assert (H : format_docs (a ++ b)
              = (format_docs a ++ String Str.nl (String Str.nl "")
                 ++ format_docs b)%string).
  { unfold format_docs. rewrite map_app. apply join_app.
    - now destruct a.
    - now destruct b. }
  split; [exact H|]. intros ma mb. rewrite H. reflexivity.
Qed.

Lemma format_docs_app_witness :
  format_docs ([mkDocument "a" []] ++ [mkDocument "b" []; mkDocument "c" []])
  = format_docs [mkDocument (format_docs [mkDocument "a" []]) [];
                 mkDocument
                   (format_docs [mkDocument "b" []; mkDocument "c" []]) []].
Proof.
  apply (format_docs_app [mkDocument "a" []]
           [mkDocument "b" []; mkDocument "c" []]); discriminate.
Defined.

(** X3: the context is empty only when nothing was retrieved or when the
    one document retrieved has an empty text. *)
Theorem format_docs_empty_iff (docs : list Document) :
  format_docs docs = ""
  <-> docs = [] \/ exists d, docs = [d] /\ page_content d = "".
Proof.
  split.
  - destruct docs as [|d [|d' rest]]; intros H.
    + now left.
    + right. exists d. split; [reflexivity | exact H].
    + exfalso. unfold format_docs in H. cbn [map] in H.
      rewrite StrFacts.join_cons2 in H.
      destruct (page_content d); discriminate.
  - intros [-> | (d & -> & Hd)]; [reflexivity | exact Hd].
Qed.

Lemma format_docs_empty_iff_witness : format_docs [mkDocument "" []] = "".
Proof.
  apply (proj2 (format_docs_empty_iff [mkDocument "" []])).
  right. exists (mkDocument "" []). split; reflexivity.
Defined.

(** X4: what [prompt.invoke] does with any inputs: it needs a value for
    [question] and one for [context] and fails when one is missing;
    other keys are ignored. *)
Theorem prompt_invoke_inputs (inputs : Template.kwargs) :
  prompt_invoke inputs
  = match Template.lookup "question" inputs,
          Template.lookup "context" inputs with
    | Some question, Some context =>
        Some (mkChatPromptValue
                [HumanMessage (rendered_prompt question context)])
    | _, _ => None
    end.
Proof.
  unfold prompt_invoke, Template.format.
  rewrite parse_rag_prompt_template.
  cbn [Template.render].
  destruct (Template.lookup "question" inputs) as [q|];
    destruct (Template.lookup "context" inputs) as [c|];
    cbn [option_map]; reflexivity.
Qed.

Lemma rendered_prompt_length (question context : string) :
  String.length (rendered_prompt question context)
  = Notebook.template_overhead + String.length question
    + String.length context.
Proof.
  unfold rendered_prompt, Notebook.template_overhead.
  rewrite !StrFacts.length_append. lia.
Qed.

(** X5: the size of the assembled prompt: the 268 characters of the
    template, the question, the documents' texts and two line feeds
    between each two of them. *)
Theorem assemble_length (question : string) (docs : list Document) :
  exists text,
    assemble question docs = Some (mkChatPromptValue [HumanMessage text])
    /\ String.length text
       = 268 + String.length question
         + list_sum (map (fun d => String.length (page_content d)) docs)
         + 2 * (List.length docs - 1).
Proof.
  eexists. split; [apply prompt_invoke_context_question|].
  rewrite rendered_prompt_length.
  unfold format_docs. rewrite join_length, map_map, length_map.
  change Notebook.template_overhead with 268. simpl String.length. lia.
Qed.

End FormatterFacts.

(** ** The sample cells *)

Module NotebookFacts.

Import Notebook.
Local Open Scope nat_scope.
Local Open Scope list_scope.

Lemma prefix_of_spec (n : nat) (s : string) :
  String.length (prefix_of n s) = Nat.min n (String.length s)
  /\ exists rest, s = (prefix_of n s ++ rest)%string.
Proof.
  unfold prefix_of. revert s. induction n as [|n IH]; intros s.
  - destruct s; simpl; split; eauto.
  - destruct s as [|c s]; simpl.
    + split; [reflexivity | now exists ""%string].
    + destruct (IH s) as [Hl [rest Hr]]. split; [now rewrite Hl|].
      exists rest. now rewrite <- Hr.
Qed.

Lemma skipn_step {A : Type} (a : nat) (l : list A) (x : A) (rest : list A) :
  skipn a l = x :: rest -> skipn (S a) l = rest.
Proof.
  revert l. induction a as [|a IH]; intros l H.
  - simpl in H. now subst l.
  - destruct l as [|y l]; [discriminate|]. simpl in H. now apply IH.
Qed.

Lemma print_each_seq (chunks : list Document) (n a : nat)
    (printed : list string) :
  print_each (seq a n) chunks printed
  = (printed
     ++ map (fun d => prefix_of 50 (page_content d))
            (firstn n (skipn a chunks)),
     if n <=? List.length (skipn a chunks) then Completed else IndexError).
Proof.
  revert a printed. induction n as [|n IH]; intros a printed.
  - simpl. now rewrite app_nil_r.
  - cbn [seq print_each]. rewrite <- hd_error_skipn.
    destruct (skipn a chunks) as [|d rest] eqn:E.
    + simpl. now rewrite app_nil_r.
    + cbn [hd_error]. rewrite IH, (skipn_step _ _ _ _ E), <- app_assoc.
      reflexivity.
Qed.

(** X6: the sample cell prints the heading and the first fifty characters
    (or the whole text, if shorter) of the first five chunks; with
    fewer than five chunks it prints those there are and stops at an
    index out of range. *)
Theorem print_sample_chunks_spec (chunks : list Document) :
  print_sample_chunks chunks
  = (("Sample document chunks: " ++ String Str.nl "")%string
       :: map (fun d => prefix_of 50 (page_content d)) (firstn 5 chunks),
     if 5 <=? List.length chunks then Completed else IndexError)
  /\ forall d,
       String.length (prefix_of 50 (page_content d))
       = Nat.min 50 (String.length (page_content d))
       /\ exists rest,
            page_content d = (prefix_of 50 (page_content d) ++ rest)%string.
Proof.
  split; [|intros d; apply prefix_of_spec].
  unfold print_sample_chunks. rewrite print_each_seq. reflexivity.
Qed.

End NotebookFacts.

(** ** More on the chunker *)

Module ChunkerMore.

Import Chunker ChunkerFacts.
Local Open Scope nat_scope.
Local Open Scope list_scope.

(** *** Whitespace *)

Lemma lstrip_head (t : text) (c : ascii) (rest : text) :
  lstrip t = c :: rest -> is_space c = false.
Proof.
  induction t as [|x t IH]; [discriminate|]. simpl.
  destruct (is_space x) eqn:E; [exact IH|]. now intros [= <- _].
Qed.

Lemma lstrip_blank (t : text) : lstrip t = [] <-> forallb is_space t = true.
Proof.
  induction t as [|x t IH]; simpl; [tauto|].
  destruct (is_space x); simpl; [exact IH|]. split; discriminate.
Qed.

Lemma forallb_rev {A : Type} (f : A -> bool) (l : list A) :
  forallb f (rev l) = forallb f l.
Proof.
  induction l as [|x l IH]; [reflexivity|]. simpl.
  rewrite forallb_app, IH. simpl. rewrite andb_true_r. apply andb_comm.
Qed.

(** A text is trimmed to nothing exactly when it is all whitespace. *)
Lemma strip_blank (t : text) : strip t = [] <-> forallb is_space t = true.
Proof.
  unfold strip, rstrip. split.
  - intros H. apply (f_equal (@rev ascii)) in H.
    rewrite rev_involutive in H. simpl in H.
    apply lstrip_blank in H. rewrite forallb_rev in H.
    destruct (lstrip t) as [|c rest] eqn:E; [now apply lstrip_blank|].
    apply lstrip_head in E. simpl in H. now rewrite E in H.
  - intros H. apply lstrip_blank in H. now rewrite H.
Qed.

(** A trimmed text neither begins nor ends with whitespace. *)
Lemma strip_edges (t : text) :
  (forall c rest, strip t = c :: rest -> is_space c = false)
  /\ (forall front c, strip t = front ++ [c] -> is_space c = false).
Proof.
  unfold strip, rstrip. split.
  - intros c rest H.
    destruct (lstrip_spec (rev (lstrip t))) as (spaces & Hs & Hsp).
    apply (f_equal (@rev ascii)) in Hs.
    rewrite rev_involutive, rev_app_distr, H in Hs.
    destruct (lstrip t) as [|x u] eqn:E; [discriminate|].
    simpl in Hs. injection Hs as <- _. now apply lstrip_head in E.
  - intros front c H. apply (f_equal (@rev ascii)) in H.
    rewrite rev_involutive, rev_app_distr in H. simpl in H.
    now apply lstrip_head in H.
Qed.

Lemma blank_inside (before c after : text) :
  forallb is_space (before ++ c ++ after) = true ->
  forallb is_space c = true.
Proof.
  rewrite !forallb_app. intros H.
  apply andb_prop in H as [_ H]. now apply andb_prop in H as [H _].
Qed.

(** *** Where a chunk comes from *)

Lemma emit_nonempty (flag : bool) (pieces : list text) (c : text) :
  In c (emit flag pieces) -> c <> [].
Proof.
  unfold emit, join_docs.
  destruct (if flag then strip (List.concat pieces) else List.concat pieces)
    as [|x u]; intros H; [destruct H | destruct H as [<- | []]; discriminate].
Qed.

Lemma emit_stripped (pieces : list text) (c : text) :
  In c (emit true pieces) -> c = strip (List.concat pieces).
Proof.
  unfold emit, join_docs.
  destruct (strip (List.concat pieces)) as [|x u];
    intros H; [destruct H | destruct H as [<- | []]; reflexivity].
Qed.

Section Provenance.

Variables chunk_size chunk_overlap : nat.
Variable flag : bool.

Local Abbreviation merge := (merge chunk_size chunk_overlap flag).
Local Abbreviation collect := (collect chunk_size chunk_overlap flag).
Local Abbreviation split_text := (split_text chunk_size chunk_overlap flag).

Lemma merge_emitted (splits current : list text) (c : text) :
  In c (merge current splits) -> exists pieces, In c (emit flag pieces).
Proof.
  revert current. induction splits as [|d more IH]; intros current H.
  - now exists current.
  - cbn [Chunker.merge] in H.
    destruct (chunk_size <? total_length current + List.length d).
    + destruct current as [|x current]; [now apply IH in H|].
      apply in_app_or in H as [H | H]; [eauto | now apply IH in H].
    + now apply IH in H.
Qed.

Lemma collect_emitted (recur : text -> list text) (splits good : list text)
    (c : text) :
  In c (collect recur good splits) ->
  (exists pieces, In c (emit flag pieces))
  \/ exists piece,
       In piece splits /\ chunk_size <= List.length piece
       /\ In c (recur piece).
Proof.
  revert good. induction splits as [|piece more IH]; intros good H.
  - left. eapply merge_emitted, H.
  - cbn [Chunker.collect] in H.
    destruct (List.length piece <? chunk_size) eqn:E.
    + destruct (IH _ H) as [Hl | (p & Hp & Hr)]; [now left|].
      right. exists p. split; [now right | exact Hr].
    + apply Nat.ltb_ge in E.
      apply in_app_or in H as [H | H]; [|apply in_app_or in H as [H | H]].
      * left. eapply merge_emitted, H.
      * right. exists piece. split; [now left | now split].
      * destruct (IH _ H) as [Hl | (p & Hp & Hr)]; [now left|].
        right. exists p. split; [now right | exact Hr].
Qed.

(** A chunk is the text of merged pieces, or a piece at least
    [chunk_size] long that the finest separator does not cut. *)
Lemma split_text_emitted (finer : list text) (sep t c : text) :
  In c (split_text sep finer t) ->
  (exists pieces, In c (emit flag pieces))
  \/ (chunk_size <= List.length c /\ c <> []
      /\ split_keep (finest sep finer) c = [c]).
Proof.
  revert sep t c.
  assert (Hw : forall sep t c,
             In c (process chunk_size chunk_overlap flag sep whole t) ->
             (exists pieces, In c (emit flag pieces))
             \/ (chunk_size <= List.length c /\ c <> []
                 /\ split_keep sep c = [c])).
  { intros sep t c H. unfold process in H.
    apply collect_emitted in H as [H | (piece & Hp & Hbig & [<- | []])];
      [now left|].
    right. repeat split; [exact Hbig | |].
    - eapply split_keep_nonempty, Hp.
    - eapply split_keep_fixed, Hp. }
  induction finer as [|sep' finer' IH]; intros sep t c;
    cbn [Chunker.split_text finest].
  - apply Hw.
  - destruct (negb (nonempty sep)); [apply Hw|].
    destruct (occurs sep t); [|apply IH].
    unfold process. intros H.
    apply collect_emitted in H as [H | (piece & _ & _ & H)]; [now left|].
    eapply IH, H.
Qed.

End Provenance.

Lemma split_text_nonempty (cs co : nat) (flag : bool) (finer : list text)
    (sep t c : text) :
  In c (split_text cs co flag sep finer t) -> c <> [].
Proof.
  intros H. apply split_text_emitted in H as [[pieces H] | (_ & H & _)].
  - eapply emit_nonempty, H.
  - exact H.
Qed.

(** X7: no chunk is empty. *)
Theorem chunks_nonempty (sp : Splitter) (t c : text) :
  In c (chunk_texts sp t) -> c <> [].
Proof.
  unfold chunk_texts. intros H. eapply split_text_nonempty. exact H.
Qed.

Lemma chunks_nonempty_witness : lit "import os" <> [].
Proof.
  apply (chunks_nonempty code_splitter import_line). vm_compute. now left.
Defined.

(** X8: with trimming, a chunk shorter than [chunk_size] neither begins
    nor ends with whitespace. *)
Theorem trimmed_chunk_edges (sp : Splitter) (t c : text) :
  strip_whitespace sp = true ->
  In c (chunk_texts sp t) ->
  List.length c < chunk_size sp ->
  (forall x rest, c = x :: rest -> is_space x = false)
  /\ (forall front x, c = front ++ [x] -> is_space x = false).
Proof.
  unfold chunk_texts. intros -> H Hlen.
  apply split_text_emitted in H as [[pieces H] | (Hbig & _)]; [|lia].
  apply emit_stripped in H. subst c. apply strip_edges.
Qed.

Lemma trimmed_chunk_edges_witness : is_space "i" = false /\ is_space "s" = false.
Proof.
  destruct (trimmed_chunk_edges code_splitter import_line (lit "import os"))
    as [Hfirst Hlast].
  - reflexivity.
  - vm_compute. now left.
  - vm_compute. repeat constructor.
  - split.
    + apply (Hfirst "i"%char (lit "mport os")). reflexivity.
    + apply (Hlast (lit "import o") "s"%char). reflexivity.
Defined.

(** *** Chunks and the text *)

Lemma stitches_occurs (n : nat) (chunks : list text) (t c : text) :
  stitches n chunks t -> In c chunks ->
  exists before after, t = before ++ c ++ after.
Proof.
  induction 1 as [|c0|before shared c0 rest t Hn Hs H IH]; intros Hin.
  - destruct Hin.
  - destruct Hin as [<- | []]. exists [], []. now rewrite app_nil_r.
  - destruct Hin as [<- | Hin].
    + destruct (stitches_head _ _ _ _ H) as [after ->].
      apply starts_with_split in Hs as [fresh ->].
      exists [], (fresh ++ after). simpl. now rewrite <- !app_assoc.
    + destruct (IH Hin) as (b & a & ->).
      exists (before ++ b), a. now rewrite <- app_assoc.
Qed.

Lemma trimmed_from_In (chunks ss : list text) (c : text) :
  trimmed_from chunks ss -> In c chunks ->
  exists s, In s ss /\ (c = s \/ c = strip s).
Proof.
  induction 1 as [|s chunks ss H IH|s chunks ss Hs H IH|s chunks ss Hs H IH];
    intros Hin.
  - destruct Hin.
  - destruct Hin as [<- | Hin]; [exists s; split; [now left | now left]|].
    destruct (IH Hin) as (s' & Hs' & Hc). exists s'. split; [now right | exact Hc].
  - destruct Hin as [<- | Hin]; [exists s; split; [now left | now right]|].
    destruct (IH Hin) as (s' & Hs' & Hc). exists s'. split; [now right | exact Hc].
  - destruct (IH Hin) as (s' & Hs' & Hc). exists s'. split; [now right | exact Hc].
Qed.

Lemma split_text_substring (cs co : nat) (flag : bool) (finer : list text)
    (sep t c : text) :
  In c (split_text cs co flag sep finer t) ->
  exists before after, t = before ++ c ++ after.
Proof.
  intros H.
  destruct (trimmed_from_In _ _ _ (split_text_trimmed _ _ _ _ _ _) H)
    as (s & Hs & Hc).
  destruct (stitches_occurs _ _ _ _ (split_text_stitches cs co finer sep t) Hs)
    as (b & a & Ht).
  destruct Hc as [-> | ->]; [now exists b, a|].
  destruct (strip_spec s) as (l & r & Hlr & _).
  exists (b ++ l), (r ++ a). rewrite Ht. rewrite Hlr at 1.
  now rewrite <- !app_assoc.
Qed.

(** X9: every chunk is a stretch of the document: the characters of a
    chunk stand in the text, in the same order and side by side. *)
Theorem chunk_is_substring (sp : Splitter) (t c : text) :
  In c (chunk_texts sp t) -> exists before after, t = before ++ c ++ after.
Proof.
  unfold chunk_texts. intros H. eapply split_text_substring. exact H.
Qed.

Lemma chunk_is_substring_witness :
  exists before after, import_line = before ++ lit "import os" ++ after.
Proof.
  apply (chunk_is_substring code_splitter import_line).
  vm_compute. now left.
Defined.

(** *** Blank and non-blank documents *)

Lemma trimmed_from_nothing (ss : list text) :
  trimmed_from [] ss -> forall s, In s ss -> strip s = [].
Proof.
  remember (@nil text) as chunks eqn:E. intros H.
  induction H as [|s chunks ss H IH|s chunks ss Hs H IH|s chunks ss Hs H IH];
    try discriminate; intros x Hx.
  - destruct Hx.
  - destruct Hx as [<- | Hx]; [exact Hs | now apply IH].
Qed.

Lemma stitches_blank (n : nat) (chunks : list text) (t : text) :
  stitches n chunks t ->
  (forall s, In s chunks -> forallb is_space s = true) ->
  forallb is_space t = true.
Proof.
  induction 1 as [|c|before shared c rest t Hn Hs H IH]; intros Hb.
  - reflexivity.
  - apply Hb. now left.
  - rewrite forallb_app. apply andb_true_intro. split.
    + specialize (Hb _ (or_introl eq_refl)). rewrite forallb_app in Hb.
      now apply andb_prop in Hb as [Hb _].
    + apply IH. intros s Hs'. apply Hb. now right.
Qed.

Lemma split_text_nothing (cs co : nat) (flag : bool) (finer : list text)
    (sep : text) :
  split_text cs co flag sep finer [] = [].
Proof.
  revert sep. induction finer as [|sep' finer' IH]; intros sep;
    cbn [split_text].
  - unfold process. simpl. apply emit_nothing.
  - destruct sep as [|x sep]; simpl.
    + unfold process. simpl. apply emit_nothing.
    + apply IH.
Qed.

Lemma split_text_nonblank (cs co : nat) (flag : bool) (finer : list text)
    (sep t : text) :
  strip t <> [] -> split_text cs co flag sep finer t <> [].
Proof.
  intros Hne Hnil. apply Hne, strip_blank.
  eapply stitches_blank; [apply (split_text_stitches cs co finer sep t)|].
  intros s Hs. apply strip_blank.
  eapply trimmed_from_nothing; [|exact Hs].
  rewrite <- Hnil. apply split_text_trimmed.
Qed.

(** X10: an empty document gives no chunk; a document that is not blank
    gives at least one. *)
Theorem nonblank_document_chunked (sp : Splitter) :
  chunk_texts sp [] = []
  /\ forall t, strip t <> [] -> chunk_texts sp t <> [].
Proof.
  split.
  - apply split_text_nothing.
  - intros t. apply split_text_nonblank.
Qed.

Lemma nonblank_document_chunked_witness :
  chunk_texts code_splitter import_line <> [].
Proof.
  apply (nonblank_document_chunked code_splitter).
  vm_compute. discriminate.
Defined.

Lemma single_character (c : text) : split_keep [] c = [c] -> List.length c = 1.
Proof.
  rewrite split_keep_characters. intros H.
  apply (f_equal (@List.length text)) in H.
  now rewrite length_map in H.
Qed.

Lemma python_split_text_bounded (cs co : nat) (flag : bool) (t c : text) :
  1 <= cs ->
  In c (split_text cs co flag (Str.nl :: lit "class ") python_separators t) ->
  List.length c <= cs.
Proof.
  intros Hcs H. apply split_text_bound in H as [H | [_ H]]; [exact H|].
  change (split_keep [] c = [c]) in H. apply single_character in H. lia.
Qed.

(** X11: with the separators of Python and room for at least one
    character, no chunk is longer than [chunk_size]: in the notebook
    (750) and in its draft (10000) alike. *)
Theorem python_chunks_bounded (cs co : nat) (t c : text) :
  1 <= cs ->
  In c (chunk_texts (Notebook.from_language_python cs co) t) ->
  List.length c <= cs.
Proof.
  unfold chunk_texts. intros Hcs H.
  eapply python_split_text_bounded; [exact Hcs | exact H].
Qed.

Lemma python_chunks_bounded_witness :
  List.length (lit "import os") <= 100 * 100.
Proof.
  apply (python_chunks_bounded (100 * 100) 800 import_line).
  - lia.
  - vm_compute. now left.
Defined.

(** X12: with the separators of Python and room for two characters, a
    document gives no chunk exactly when it is blank. *)
Theorem python_no_chunk_iff_blank (cs co : nat) (t : text) :
  2 <= cs ->
  chunk_texts (Notebook.from_language_python cs co) t = [] <-> strip t = [].
Proof.
  intros Hcs. split.
  - intros Hnil.
    destruct (strip t) as [|x u] eqn:E; [reflexivity|]. exfalso.
    apply (split_text_nonblank cs co true python_separators
             (Str.nl :: lit "class ") t);
      [rewrite E; discriminate | exact Hnil].
  - intros Hb.
    destruct (chunk_texts (Notebook.from_language_python cs co) t)
      as [|c rest] eqn:E; [reflexivity|]. exfalso.
    assert (Hin : In c (chunk_texts (Notebook.from_language_python cs co) t))
      by (rewrite E; now left).
    destruct (split_text_substring _ _ _ _ _ _ _ Hin) as (b & a & Ht).
    apply strip_blank in Hb. rewrite Ht in Hb. apply blank_inside in Hb.
    apply split_text_emitted in Hin as [[pieces Hin] | (Hbig & _ & Hone)].
    + pose proof (emit_nonempty _ _ _ Hin) as Hne.
      apply emit_stripped in Hin.
      destruct c as [|x u]; [contradiction|].
      destruct (strip_edges (List.concat pieces)) as [Hfirst _].
      rewrite <- Hin in Hfirst. specialize (Hfirst x u eq_refl).
      simpl in Hb. now rewrite Hfirst in Hb.
    + change (split_keep [] c = [c]) in Hone. simpl in Hbig.
      apply single_character in Hone. lia.
Qed.

Lemma python_no_chunk_iff_blank_witness :
  chunk_texts (Notebook.from_language_python 750 75) (lit "   ") = [].
Proof.
  apply (python_no_chunk_iff_blank 750 75 (lit "   ")).
  - lia.
  - reflexivity.
Defined.

(** *** Documents *)

Lemma string_of_list_ascii_app (a b : text) :
  string_of_list_ascii (a ++ b)
  = (string_of_list_ascii a ++ string_of_list_ascii b)%string.
Proof. induction a as [|x a IH]; simpl; congruence. Qed.

Lemma split_documents_In (sp : Splitter) (docs : list Document) (c : Document) :
  In c (split_documents sp docs) <->
  exists d piece,
    In d docs /\ In piece (chunk_texts sp (lit (page_content d)))
    /\ c = mkDocument (string_of_list_ascii piece) (metadata d).
Proof.
  unfold split_documents. rewrite in_flat_map. split.
  - intros (d & Hd & Hc). apply in_map_iff in Hc as (piece & <- & Hp).
    now exists d, piece.
  - intros (d & piece & Hd & Hp & ->). exists d. split; [exact Hd|].
    apply in_map_iff. now exists piece.
Qed.

(** X13: a chunk document carries the metadata of a document that was
    split, and its text is not empty and stands character for
    character in the text of that document. *)
Theorem split_documents_sound (sp : Splitter) (docs : list Document)
    (c : Document) :
  In c (split_documents sp docs) ->
  exists d,
    In d docs /\ metadata c = metadata d
    /\ page_content c <> ""%string
    /\ Str.verbatim_in (page_content c) (page_content d).
Proof.
  intros H. apply split_documents_In in H as (d & piece & Hd & Hp & ->).
  exists d. cbn [metadata page_content]. repeat split; [exact Hd| |].
  - apply split_text_nonempty in Hp.
    destruct piece; [contradiction | discriminate].
  - destruct (split_text_substring _ _ _ _ _ _ _ Hp) as (b & a & Ht).
    exists (string_of_list_ascii b), (string_of_list_ascii a).
    rewrite <- !string_of_list_ascii_app, <- Ht.
    unfold lit. now rewrite string_of_list_ascii_of_string.
Qed.

Lemma split_documents_sound_witness :
  exists d,
    In d [mkDocument "import os" [("source", "a.py")]]
    /\ [("source", "a.py")] = metadata d
    /\ "import os"%string <> ""%string
    /\ Str.verbatim_in "import os" (page_content d).
Proof.
  apply (split_documents_sound code_splitter
           [mkDocument "import os" [("source", "a.py")]]
           (mkDocument "import os" [("source", "a.py")])).
  vm_compute. now left.
Defined.

(** X14: splitting is done document by document: a batch gives the chunks
    of its parts one after the other, and there are at least as many
    chunks as there are documents that are not blank. *)
Theorem split_documents_batches (sp : Splitter) (docs docs' : list Document) :
  split_documents sp (docs ++ docs')
  = split_documents sp docs ++ split_documents sp docs'
  /\ List.length
       (filter (fun d => nonempty (strip (lit (page_content d)))) docs)
     <= List.length (split_documents sp docs).
Proof.
  split; [apply flat_map_app|].
  induction docs as [|d docs IH]; [simpl; lia|].
  unfold split_documents in *. cbn [flat_map filter].
  rewrite length_app, length_map.
  destruct (strip (lit (page_content d))) as [|x u] eqn:E; cbn [nonempty].
  - lia.
  - assert (Hne : chunk_texts sp (lit (page_content d)) <> []).
    { apply split_text_nonblank. rewrite E. discriminate. }
    destruct (chunk_texts sp (lit (page_content d))); [contradiction|].
    simpl. lia.
Qed.

End ChunkerMore.

(** ** More on retrieval *)

Module RetrievalMore.

Import Retrieval RetrievalFacts.
Local Open Scope Z_scope.
Local Open Scope list_scope.

Lemma pick_best_perm (score : IndexEntry -> Z) (l l' : list IndexEntry)
    (c : IndexEntry) :
  pick_best score l = Some (c, l') -> Permutation l (c :: l').
Proof.
  revert l' c. induction l as [|x l IH]; intros l' c H; [discriminate|].
  simpl in H. destruct (pick_best score l) as [[y others]|] eqn:E.
  - destruct (score x <? score y); injection H as <- <-; [|reflexivity].
    rewrite (IH _ _ eq_refl). apply perm_swap.
  - injection H as <- <-. apply pick_best_none in E. now subst l.
Qed.

Section Ranking.

Variable similarity : Embedding -> Embedding -> Z.
Variable qv : Embedding.

Local Abbreviation relevance := (relevance similarity qv).
Local Abbreviation insert_ranked := (insert_ranked similarity qv).
Local Abbreviation rank := (rank similarity qv).
Local Abbreviation ranked := (ranked similarity qv).

Lemma insert_ranked_perm (e : IndexEntry) (l : list IndexEntry) :
  Permutation (insert_ranked e l) (e :: l).
Proof.
  induction l as [|x l IH]; simpl; [reflexivity|].
  destruct (relevance x <=? relevance e); [reflexivity|].
  rewrite IH. apply perm_swap.
Qed.

Lemma rank_perm (index : Index) : Permutation (rank index) index.
Proof.
  induction index as [|e index IH]; [reflexivity|].
  unfold Retrieval.rank in *. simpl. rewrite insert_ranked_perm.
  now apply perm_skip.
Qed.

Lemma ranked_app (a b : list IndexEntry) :
  ranked (a ++ b) ->
  forall h r, In h a -> In r b -> relevance r <= relevance h.
Proof.
  unfold Retrieval.ranked.
  induction a as [|x a IH]; intros H h r Hh Hr; [destruct Hh|].
  simpl in H. inversion H as [|? ? Hrest Hx]; subst.
  destruct Hh as [<- | Hh]; [|now apply (IH Hrest h r)].
  rewrite Forall_forall in Hx. apply Hx, in_or_app. now right.
Qed.

End Ranking.

Section Reranking.

Variable resemblance : Embedding -> Embedding -> Z.
Variables relevance_weight diversity_weight : Z.
Variable qv : Embedding.

Local Abbreviation query_resemblance := (query_resemblance resemblance qv).
Local Abbreviation marginal :=
  (marginal resemblance relevance_weight diversity_weight qv).
Local Abbreviation rerank :=
  (rerank resemblance relevance_weight diversity_weight qv).
Local Abbreviation by_resemblance := (by_resemblance resemblance qv).

(** What the re-ranking returns and what it leaves are together the
    candidates. *)
Lemma rerank_perm (k : nat) (selected remaining : list IndexEntry) :
  exists left, Permutation (rerank k selected remaining ++ left) remaining.
Proof.
  revert selected remaining.
  induction k as [|k IH]; intros selected remaining.
  - now exists remaining.
  - simpl. destruct (pick_best _ remaining) as [[c rest]|] eqn:E.
    + destruct (IH (selected ++ [c]) rest) as [left Hl]. exists left.
      apply pick_best_perm in E. rewrite E. simpl. now apply perm_skip.
    + now exists remaining.
Qed.

Lemma redundancy_none (c : IndexEntry) (selected : list IndexEntry) :
  redundancy resemblance c selected = None <-> selected = [].
Proof.
  destruct selected as [|s selected]; simpl; [tauto|].
  destruct (redundancy resemblance c selected); split; discriminate.
Qed.

(** With no weight on diversity the marginal scores order the
    candidates as their resemblance to the query does. *)
Lemma marginal_order (selected : list IndexEntry) (x c : IndexEntry) :
  diversity_weight = 0 -> 0 < relevance_weight ->
  marginal selected x <= marginal selected c ->
  query_resemblance x <= query_resemblance c.
Proof.
  intros Hd Hr. unfold Retrieval.marginal.
  destruct (redundancy resemblance x selected) as [rx|] eqn:Ex;
    destruct (redundancy resemblance c selected) as [rc|] eqn:Ec.
  - nia.
  - apply redundancy_none in Ec. subst selected. discriminate.
  - apply redundancy_none in Ex. subst selected. discriminate.
  - tauto.
Qed.

(** With no weight on diversity the re-ranking is a selection sort of
    the candidates by their resemblance to the query. *)
Lemma rerank_sorted (k : nat) (selected remaining : list IndexEntry) :
  diversity_weight = 0 -> 0 < relevance_weight ->
  by_resemblance (rerank k selected remaining)
  /\ exists left,
       Permutation (rerank k selected remaining ++ left) remaining
       /\ forall h r,
            In h (rerank k selected remaining) -> In r left ->
            query_resemblance r <= query_resemblance h.
Proof.
  intros Hd Hr. unfold Retrieval.by_resemblance. revert selected remaining.
  induction k as [|k IH]; intros selected remaining.
  - split; [constructor|]. exists remaining. split; [reflexivity|].
    intros h r [].
  - cbn [Retrieval.rerank].
    destruct (pick_best _ remaining) as [[c rest]|] eqn:E.
    + pose proof (pick_best_perm _ _ _ _ E) as Hperm.
      apply pick_best_spec in E as (_ & Hmax & _ & Hback & _).
      destruct (IH (selected ++ [c]) rest) as (Hsorted & left & Hl & Hleft).
      assert (Hc : forall y, In y rest ->
                   query_resemblance y <= query_resemblance c).
      { intros y Hy. apply (marginal_order selected); auto. }
      split.
      * constructor; [exact Hsorted|]. apply Forall_forall. intros y Hy.
        apply Hc. eapply rerank_In, Hy.
      * exists left. split.
        -- rewrite Hperm. simpl. now apply perm_skip.
        -- intros h r [<- | Hh] Hrl; [|now apply Hleft].
           apply Hc. apply (Permutation_in _ Hl), in_or_app. now right.
    + split; [constructor|]. exists remaining. split; [reflexivity|].
      intros h r [].
Qed.

End Reranking.

Section Retrieve.

Variable embed : string -> Embedding.
Variable similarity : Embedding -> Embedding -> Z.
Variable resemblance : Embedding -> Embedding -> Z.
Variables relevance_weight diversity_weight : Z.
Variable fetch_k : nat.

Local Abbreviation retrieve :=
  (retrieve embed similarity resemblance relevance_weight diversity_weight
            fetch_k).
Local Abbreviation as_retriever :=
  (as_retriever embed similarity resemblance relevance_weight diversity_weight
                fetch_k).
Local Abbreviation search_entries :=
  (search_entries similarity resemblance relevance_weight diversity_weight
                  fetch_k).
Local Abbreviation mmr :=
  (max_marginal_relevance similarity resemblance relevance_weight
                          diversity_weight fetch_k).
Local Abbreviation build := (build embed).

Lemma search_entries_perm (qv : Embedding) (k : nat) (s : strategy)
    (index : Index) :
  exists left, Permutation (search_entries qv k s index ++ left) index.
Proof.
  destruct s; cbn [Retrieval.search_entries].
  - exists (skipn k (rank similarity qv index)). unfold Retrieval.nearest.
    rewrite firstn_skipn. apply rank_perm.
  - unfold max_marginal_relevance, Retrieval.nearest.
    destruct (rerank_perm resemblance relevance_weight diversity_weight qv k
                [] (firstn fetch_k (rank similarity qv index)))
      as [left Hl].
    exists (left ++ skipn fetch_k (rank similarity qv index)).
    rewrite app_assoc, Hl, firstn_skipn. apply rank_perm.
Qed.

Lemma build_chunks (docs : list Document) : map chunk (build docs) = docs.
Proof.
  unfold Retrieval.build. rewrite map_map. simpl. apply map_id.
Qed.

Lemma retrieve_perm (s : strategy) (index : Index) (q : string) (k : nat) :
  exists rest, Permutation (retrieve s index q k ++ rest) (map chunk index).
Proof.
  destruct (search_entries_perm (embed q) k s index) as [left Hl].
  exists (map chunk left).
  unfold Retrieval.retrieve, search. rewrite map_map. cbn [fst].
  rewrite <- map_app. now apply Permutation_map.
Qed.

(** X15: the retriever returns documents that were indexed, none more
    often than it was indexed; an index of at most ten documents,
    all of them among the candidates, is returned whole. *)
Theorem as_retriever_returns_indexed (docs : list Document) (q : string) :
  (exists rest, Permutation (as_retriever (build docs) q ++ rest) docs)
  /\ ((List.length docs <= 10)%nat -> (List.length docs <= fetch_k)%nat ->
      Permutation (as_retriever (build docs) q) docs).
Proof.
  assert (H : exists rest,
             Permutation (as_retriever (build docs) q ++ rest) docs).
  { destruct (retrieve_perm MaxMarginalRelevance (build docs) q 10)
      as [rest Hr].
    exists rest. now rewrite build_chunks in Hr. }
  split; [exact H|]. intros Hk Hf. destruct H as [rest Hr].
  pose proof (Permutation_length Hr) as Hlen.
  unfold Retrieval.as_retriever in *.
  rewrite length_app, retrieve_length in Hlen.
  unfold Retrieval.build in Hlen at 1. rewrite length_map in Hlen.
  destruct rest as [|x rest]; [now rewrite app_nil_r in Hr|].
  cbn [List.length] in Hlen. lia.
Qed.

(** X16: with no weight on diversity the diversity-aware strategy sorts
    the candidates, the [fetch_k] entries nearest to the query, by
    their resemblance to the query and returns the first [k]: the
    results come most like the query first, and no candidate left out
    is more like the query than one returned. *)
Theorem retrieve_without_diversity (index : Index) (q : string) (k : nat) :
  diversity_weight = 0 -> 0 < relevance_weight ->
  retrieve MaxMarginalRelevance index q k = map chunk (mmr (embed q) k index)
  /\ by_resemblance resemblance (embed q) (mmr (embed q) k index)
  /\ exists left,
       Permutation (mmr (embed q) k index ++ left)
                   (nearest similarity (embed q) fetch_k index)
       /\ forall h r,
            In h (mmr (embed q) k index) -> In r left ->
            query_resemblance resemblance (embed q) r
            <= query_resemblance resemblance (embed q) h.
Proof.
  intros Hd Hr. split.
  - unfold Retrieval.retrieve, search. now rewrite map_map.
  - unfold max_marginal_relevance. now apply rerank_sorted.
Qed.

(** X17: under the plain similarity strategy the search returns the top
    [k]: the scores come best first, and no entry left in the index
    is more relevant than an entry returned. *)
Theorem similarity_search_top_k (index : Index) (q : string) (k : nat) :
  non_increasing
    (retrieved_scores embed similarity resemblance relevance_weight
                      diversity_weight fetch_k Similarity index q k) = true
  /\ exists rest,
       Permutation (nearest similarity (embed q) k index ++ rest) index
       /\ forall h r,
            In h (nearest similarity (embed q) k index) -> In r rest ->
            relevance similarity (embed q) r
            <= relevance similarity (embed q) h.
Proof.
  split; [apply retrieve_similarity_ranked|].
  exists (skipn k (rank similarity (embed q) index)). unfold nearest. split.
  - rewrite firstn_skipn. apply rank_perm.
  - apply ranked_app. rewrite firstn_skipn. apply rank_ranked.
Qed.

End Retrieve.

Lemma as_retriever_returns_indexed_witness :
  Permutation
    (Retrieval.as_retriever letter_counts closeness closeness 1 1 20
                            example_db "")
    example_chunks.
Proof.
  apply (proj2 (as_retriever_returns_indexed letter_counts closeness closeness
                  1 1 20 example_chunks "")).
  - simpl. lia.
  - simpl. lia.
Defined.

Lemma retrieve_without_diversity_witness :
  by_resemblance inner_product (letter_counts "b")
    (max_marginal_relevance closeness inner_product 1 0 20 (letter_counts "b")
                            10 example_db).
Proof.
  apply (retrieve_without_diversity letter_counts closeness inner_product
           1 0 20 example_db "b" 10); [reflexivity | lia].
Defined.

End RetrievalMore.

(** ** The steps together *)

Module PipelineFacts.

Import Notebook.
Local Open Scope nat_scope.
Local Open Scope list_scope.

Lemma length_string_of_list_ascii (c : Chunker.text) :
  String.length (string_of_list_ascii c) = List.length c.
Proof. induction c as [|x c IH]; simpl; congruence. Qed.

Lemma list_sum_bound {A : Type} (f : A -> nat) (m : nat) (l : list A) :
  (forall x, In x l -> f x <= m) -> list_sum (map f l) <= m * List.length l.
Proof.
  induction l as [|x l IH]; intros H; simpl; [lia|].
  assert (f x <= m) by (apply H; now left).
  assert (list_sum (map f l) <= m * List.length l)
    by (apply IH; intros y Hy; apply H; now right).
  unfold list_sum in *. lia.
Qed.

Section Pipeline.

Variable embed : string -> Embedding.
Variable similarity : Embedding -> Embedding -> Z.
Variable resemblance : Embedding -> Embedding -> Z.
Variables relevance_weight diversity_weight : Z.
Variable fetch_k : nat.

Local Abbreviation retriever :=
  (retriever embed similarity resemblance relevance_weight diversity_weight fetch_k).
Local Abbreviation mmr :=
  (Retrieval.max_marginal_relevance similarity resemblance relevance_weight
     diversity_weight fetch_k).

Lemma retriever_hits (index : Index) (q : string) :
  retriever index q = map chunk (mmr (embed q) 10 index).
Proof.
  unfold Notebook.retriever, Retrieval.as_retriever, Retrieval.retrieve,
    Retrieval.search.
  now rewrite map_map.
Qed.

Lemma retriever_length (index : Index) (q : string) :
  List.length (retriever index q)
  = Nat.min 10 (Nat.min fetch_k (List.length index)).
Proof.
  apply (RetrievalFacts.retrieve_length embed similarity resemblance relevance_weight
           diversity_weight fetch_k Retrieval.MaxMarginalRelevance).
Qed.

Lemma retriever_In (index : Index) (q : string) (d : Document) :
  In d (retriever index q) -> exists e, In e index /\ d = chunk e.
Proof.
  rewrite retriever_hits. intros H.
  apply in_map_iff in H as (e & <- & He). exists e. split; [|reflexivity].
  unfold Retrieval.max_marginal_relevance in He.
  apply RetrievalFacts.rerank_In in He.
  eapply RetrievalFacts.nearest_In, He.
Qed.

(** X18: the sample retrieval stops at an index out of range exactly when
    the index is empty or no candidate is fetched; otherwise it prints
    the text of an entry of the index: of the [fetch_k] entries
    nearest to the query, the one that resembles the query most. *)
Theorem print_first_retrieved_spec (index : Index) (query : string) :
  (print_first_retrieved (retriever index) query = None
   <-> index = [] \/ fetch_k = 0)
  /\ forall printed,
       print_first_retrieved (retriever index) query = Some printed ->
       exists e,
         In e index
         /\ In e (Retrieval.nearest similarity (embed query) fetch_k index)
         /\ printed = page_content (chunk e)
         /\ forall e',
              In e' (Retrieval.nearest similarity (embed query) fetch_k
                                       index) ->
              (Retrieval.query_resemblance resemblance (embed query) e'
               <= Retrieval.query_resemblance resemblance (embed query) e)%Z.
Proof.
  unfold print_first_retrieved. split.
  - pose proof (retriever_length index query) as Hlen.
    destruct (retriever index query) as [|d rest]; cbn [List.length] in Hlen.
    + split; [intros _ | reflexivity].
      destruct index; [now left|]. right. cbn [List.length] in Hlen. lia.
    + split; [discriminate|].
      intros [-> | ->]; cbn [List.length] in Hlen; lia.
  - intros printed. rewrite retriever_hits.
    unfold Retrieval.max_marginal_relevance.
    destruct (Retrieval.rerank _ _ _ _ 10 []
                (Retrieval.nearest similarity (embed query) fetch_k index))
      as [|c rest] eqn:Hr; [discriminate|].
    intros [= <-].
    assert (Hc : In c (Retrieval.nearest similarity (embed query) fetch_k
                                         index)).
    { eapply RetrievalFacts.rerank_In. rewrite Hr. now left. }
    exists c. split; [|split; [exact Hc | split; [reflexivity|]]].
    + eapply RetrievalFacts.nearest_In, Hc.
    + intros e' He'.
      exact (RetrievalFacts.rerank_greedy resemblance relevance_weight
               diversity_weight (embed query) 10 [] _ [] rest c Hr e' He'
               (fun F => F)).
Qed.

(** X19: on an empty index the chain still asks the language model, with
    an empty context, while the sample retrieval stops at an index
    out of range. *)
Theorem empty_index_chain (llm : ChatPromptValue -> string)
    (question : string) :
  rag_chain (retriever []) llm question
  = Some (llm (mkChatPromptValue
                 [HumanMessage (rendered_prompt question "")]))
  /\ print_first_retrieved (retriever []) question = None.
Proof.
  assert (H : retriever [] question = []).
  { pose proof (retriever_length [] question) as Hlen.
    destruct (retriever [] question); [reflexivity|].
    cbn [List.length] in Hlen. lia. }
  split.
  - unfold rag_chain, rag_inputs, RunnableParallel, pipe. cbn [map fst snd].
    rewrite H. unfold RunnablePassthrough.
    change (format_docs []) with ""%string.
    now rewrite prompt_invoke_context_question.
  - unfold print_first_retrieved. now rewrite H.
Qed.

(** X20: the chunks of the notebook's splitter have at most 750 characters,
    so an index built from them holds texts of at most 750
    characters; over any such index the context of a question has at
    most 7518 characters (ten chunks and nine separators of two), and the
    prompt at most 268 more than the question and the context. *)
Theorem context_bounded :
  (forall documents e,
      In e (vector_db embed documents) ->
      String.length (page_content (chunk e)) <= 750)
  /\ forall index question,
       (forall e, In e index ->
          String.length (page_content (chunk e)) <= 750) ->
       String.length (format_docs (retriever index question)) <= 10 * 750 + 2 * 9
       /\ exists text,
            assemble question (retriever index question)
            = Some (mkChatPromptValue [HumanMessage text])
            /\ String.length text <= 268 + String.length question + (10 * 750 + 2 * 9).
Proof.
  split.
  - intros documents e He. unfold vector_db, Retrieval.build in He.
    apply in_map_iff in He as (d & <- & Hd). cbn [chunk].
    unfold doc_chunks in Hd.
    apply ChunkerMore.split_documents_In in Hd as (d0 & piece & _ & Hp & ->).
    cbn [page_content]. rewrite length_string_of_list_ascii.
    apply (ChunkerMore.python_split_text_bounded 750 75 true _ _
             ltac:(lia) Hp).
  - intros index question Hb.
    assert (Hc : String.length (format_docs (retriever index question))
                 <= 10 * 750 + 2 * 9).
    { unfold format_docs.
      rewrite FormatterFacts.join_length, map_map, length_map.
      change (String.length (String Str.nl (String Str.nl ""))) with 2.
      pose proof (retriever_length index question) as Hlen.
      assert (Hs : list_sum
                     (map (fun d => String.length (page_content d))
                          (retriever index question))
                   <= 750 * List.length (retriever index question)).
      { apply list_sum_bound. intros d Hd.
        apply retriever_In in Hd as (e & He & ->). now apply Hb. }
      lia. }
    split; [exact Hc|]. eexists. split.
    + apply prompt_invoke_context_question.
    + rewrite FormatterFacts.rendered_prompt_length.
      change template_overhead with 268. lia.
Qed.

End Pipeline.

Lemma print_first_retrieved_spec_witness :
  exists e,
    In e Retrieval.example_db
    /\ In e (Retrieval.nearest Retrieval.closeness
               (Retrieval.letter_counts "b") 20 Retrieval.example_db)
    /\ "bbb"%string = page_content (chunk e)
    /\ forall e',
         In e' (Retrieval.nearest Retrieval.closeness
                  (Retrieval.letter_counts "b") 20 Retrieval.example_db) ->
         (Retrieval.query_resemblance Retrieval.inner_product
            (Retrieval.letter_counts "b") e'
          <= Retrieval.query_resemblance Retrieval.inner_product
               (Retrieval.letter_counts "b") e)%Z.
Proof.
  apply (proj2 (print_first_retrieved_spec Retrieval.letter_counts
                  Retrieval.closeness Retrieval.inner_product 1 1 20
                  Retrieval.example_db "b")).
  vm_compute. reflexivity.
Defined.

Lemma context_bounded_witness :
  String.length
    (format_docs
       (retriever Retrieval.letter_counts Retrieval.closeness
                  Retrieval.closeness 1 1 20
                  Retrieval.example_db "")) <= 10 * 750 + 2 * 9.
Proof.
  apply (proj2 (context_bounded Retrieval.letter_counts Retrieval.closeness
                  Retrieval.closeness 1 1 20) Retrieval.example_db "").
  intros e [<- | [<- | [<- | []]]]; vm_compute; repeat constructor.
Defined.

(** *** Words *)

Lemma words_count (t : Chunker.text) :
  2 * List.length (words t)
  <= List.length t
     + match t with
       | c :: _ => if Chunker.is_space c then 0 else 1
       | [] => 0
       end.
Proof.
  induction t as [|c rest IH]; [simpl; lia|].
  cbn [words List.length]. destruct (Chunker.is_space c).
  - destruct rest as [|c' r]; [simpl; lia|].
    destruct (Chunker.is_space c'); lia.
  - destruct rest as [|c' r]; [simpl; lia|].
    destruct (Chunker.is_space c').
    + cbn [List.length] in *. lia.
    + destruct (words (c' :: r)) as [|w ws]; cbn [List.length] in *; lia.
Qed.

Lemma words_clean (t w : Chunker.text) :
  In w (words t) ->
  w <> [] /\ forallb (fun c => negb (Chunker.is_space c)) w = true.
Proof.
  revert w. induction t as [|c rest IH]; intros w H; [destruct H|].
  cbn [words] in H. destruct (Chunker.is_space c) eqn:Ec; [now apply IH|].
  assert (Hc : forall w', w' = [c] ->
             w' <> []
             /\ forallb (fun c => negb (Chunker.is_space c)) w' = true).
  { intros w' ->. split; [discriminate|]. simpl. now rewrite Ec. }
  destruct rest as [|c' r]; [destruct H as [<- | []]; now apply Hc|].
  destruct (Chunker.is_space c').
  - destruct H as [<- | H]; [now apply Hc | now apply IH].
  - destruct (words (c' :: r)) as [|w0 ws];
      [destruct H as [<- | []]; now apply Hc|].
    destruct H as [<- | H].
    + destruct (IH w0 (or_introl eq_refl)) as [_ Hw0].
      split; [discriminate|]. simpl. now rewrite Ec, Hw0.
    + apply IH. now right.
Qed.

(** X21: the words of a text are not empty and hold no whitespace, and
    there are at most half as many of them as there are characters
    (rounded up); a chunk of the notebook's splitter therefore has at
    most 375 words. *)
Theorem word_counts_bounded :
  (forall t w,
      In w (words t) ->
      w <> [] /\ forallb (fun c => negb (Chunker.is_space c)) w = true)
  /\ (forall t, 2 * List.length (words t) <= List.length t + 1)
  /\ forall documents n,
       In n (word_counts (doc_chunks documents)) -> n <= 375.
Proof.
  split; [exact words_clean|]. split.
  - intros t. pose proof (words_count t) as H.
    destruct t as [|c r]; [simpl in *; lia|].
    destruct (Chunker.is_space c); lia.
  - intros documents n Hn. unfold word_counts in Hn.
    apply in_map_iff in Hn as (sent & <- & Hs). unfold doc_chunks in Hs.
    apply ChunkerMore.split_documents_In in Hs as (d & piece & _ & Hp & ->).
    cbn [page_content]. unfold Chunker.lit.
    rewrite list_ascii_of_string_of_list_ascii.
    pose proof (ChunkerMore.python_split_text_bounded 750 75 true _ _
                  ltac:(lia) Hp) as Hlen.
    pose proof (words_count piece) as Hw.
    destruct piece as [|c r]; [simpl in *; lia|].
    destruct (Chunker.is_space c); lia.
Qed.

Lemma word_counts_bounded_witness : 2 <= 375.
Proof.
  apply (proj2 (proj2 word_counts_bounded)
           [mkDocument "import os" []] 2).
  vm_compute. now left.
Defined.

End PipelineFacts.
